(** * RustCC conformance corpus: a shallow embedding and its properties

    The repository snapshot holds the C programs that the obfuscating
    compiler must handle (nested conditionals, loops with early exit,
    fallthrough switches, recursion, string comparison).  Each C function
    that a property talks about is embedded below as a Rocq function over
    [Z], following the source statement by statement.  The compiler itself
    is not in the snapshot: the cipher and the two passes are modelled
    from the specification, after the corpus, for programs over scalar
    variables.

    Conventions of the embedding:
    - a C [int] is a [Z]; [/] is [Z.quot] and [%] is [Z.rem] (C truncates
      towards zero).  Signed overflow is undefined in C and is not
      modelled: arithmetic is exact;
    - a loop is a recursive function over the loop's variables, defined by
      well-founded recursion on the distance to the loop bound;
    - a [switch] is run by [Switch.switch], which enters at the first
      matching label and runs the arms in source order until a [break]
      or a [return];
    - a C string is a list of bytes read up to its first NUL. *)

From stdpp Require Import base gmap strings list.
From Equations Require Import Equations.
From Stdlib Require Import ZArith Lia.

Local Open Scope Z_scope.

(** ** The [switch] statement *)

Module Switch.

(** How a piece of a function body ends: control reaches its end
    ([Fall]), a [break] leaves the enclosing construct ([Brk]), or the
    function returns ([Ret]). *)
Inductive flow (S R : Type) : Type :=
| Fall (s : S)
| Brk (s : S)
| Ret (r : R).
Arguments Fall {S R} s.
Arguments Brk {S R} s.
Arguments Ret {S R} r.

Inductive label : Type :=
| Case (z : Z)
| Default.

Definition arm (S R : Type) : Type := (label * (S -> flow S R))%type.

(** Runs the arms one after the other: an arm that reaches its end
    falls through into the next one. *)
Fixpoint run_arms {S R} (arms : list (arm S R)) (s : S) : flow S R :=
  match arms with
  | [] => Fall s
  | (_, body) :: rest =>
      match body s with
      | Fall s' => run_arms rest s'
      | Brk s' => Brk s'
      | Ret r => Ret r
      end
  end.

(** The arms from the first [case v:] on. *)
Fixpoint from_case {S R} (v : Z) (arms : list (arm S R)) : option (list (arm S R)) :=
  match arms with
  | [] => None
  | (Case z, body) :: rest =>
      if v =? z then Some arms else from_case v rest
  | (Default, _) :: rest => from_case v rest
  end.

(** The arms from [default:] on. *)
Fixpoint from_default {S R} (arms : list (arm S R)) : option (list (arm S R)) :=
  match arms with
  | [] => None
  | (Default, body) :: rest => Some arms
  | (Case _, _) :: rest => from_default rest
  end.

Definition switch {S R} (v : Z) (arms : list (arm S R)) (s : S) : flow S R :=
  match from_case v arms with
  | Some entered => run_arms entered s
  | None =>
      match from_default arms with
      | Some entered => run_arms entered s
      | None => Fall s
      end
  end.

End Switch.

(** ** examples/control_flow.c *)

Module ControlFlow.
Import Switch.

Definition process_value (value : Z) : Z :=
  let result := 0 in
  if value >? 100 then
    if Z.rem value 2 =? 0 then
      let result := Z.quot value 2 in result
    else
      let result := (value * 3) + 1 in result
  else if value >? 50 then
    if Z.rem value 3 =? 0 then
      let result := value * 3 in result
    else
      let result := value - 10 in result
  else
    if Z.rem value 2 =? 0 then
      let result := value * value in result
    else
      let result := value + 1 in result.

(** The three jumps of [complex_loops] that leave a loop body early. *)
Inductive jump : Type :=
| ContinueOuter   (* continue, guarded by i % 3 == 0 *)
| BreakInner      (* break, guarded by sum > 1000 *)
| BreakOuter.     (* break, guarded by sum > 2000 *)

(** The variable [sum], and the jumps taken so far, oldest first (the
    jump history is not a variable of the program: it records which
    jumps an execution takes). *)
Record loops_state : Type := LoopsState {
  sum : Z;
  jumps : list jump
}.

Definition add_to_sum (d : Z) (s : loops_state) : loops_state :=
  LoopsState (sum s + d) (jumps s).

Definition take (j : jump) (s : loops_state) : loops_state :=
  LoopsState (sum s) (jumps s ++ [j]).

(** [for (int j = 0; j < i; j++) { sum += i * j; if (sum > 1000) break; }]
    entered with the current value of [j]. *)
Equations? inner_loop (i j : Z) (s : loops_state) : loops_state
  by wf (Z.to_nat (i - j)) lt :=
  inner_loop i j s with Z_lt_ge_dec j i => {
    | left _ =>
        let s1 := add_to_sum (i * j) s in
        if sum s1 >? 1000 then take BreakInner s1
        else inner_loop i (j + 1) s1
    | right _ => s }.
Proof. lia. Qed.

(** [for (int i = 0; i < n; i++) { ... }], entered with the current
    value of [i]; [continue] goes to the increment [i++]. *)
Equations? outer_loop (n i : Z) (s : loops_state) : loops_state
  by wf (Z.to_nat (n - i)) lt :=
  outer_loop n i s with Z_lt_ge_dec i n => {
    | left _ =>
        if Z.rem i 3 =? 0 then outer_loop n (i + 1) (take ContinueOuter s)
        else
          let s1 := inner_loop i 0 s in
          if sum s1 >? 2000 then take BreakOuter s1
          else outer_loop n (i + 1) s1
    | right _ => s }.
Proof. all: lia. Qed.

Definition complex_loops_run (n : Z) : loops_state :=
  outer_loop n 0 (LoopsState 0 []).

Definition complex_loops (n : Z) : Z := sum (complex_loops_run n).

(** The first [switch] of [complex_switch], on [code]. *)
Definition code_arms : list (arm Z Z) :=
  [ (Case 1, fun result => Brk 100);
    (Case 2, fun result => Fall 200);
    (Case 3, fun result => Brk (result + 300));
    (Case 4, fun result => Fall result);
    (Case 5, fun result => Brk 500);
    (Default, fun result => Fall (-1)) ].

(** The nested [switch], on [result]. *)
Definition result_arms : list (arm Z Z) :=
  [ (Case 100, fun result => Ret (result * 2));
    (Case 200, fun result => Fall result);
    (Case 500, fun result => Ret (Z.quot result 2));
    (Case 600, fun result => Ret (result - 100));
    (Default, fun result => Ret result) ].

Definition complex_switch (code : Z) : Z :=
  let result := 0 in
  match switch code code_arms result with
  | Ret r => r
  | Fall result | Brk result =>
      if result >? 0 then
        match switch result result_arms result with
        | Ret r => r
        | Fall result | Brk result => result
        end
      else result
  end.

End ControlFlow.

(** ** examples/fibonacci.c *)

Module Fibonacci.

Equations? fibonacci (n : Z) : Z by wf (Z.to_nat n) lt :=
  fibonacci n with Z_le_gt_dec n 1 => {
    | left _ => n
    | right _ => fibonacci (n - 1) + fibonacci (n - 2) }.
Proof. all: lia. Qed.

(** [for (int i = 2; i <= n; i++) { c = a + b; a = b; b = c; }]
    entered with the current [a], [b] and [i]; it yields the final [b]. *)
Equations? fib_loop (n a b i : Z) : Z by wf (Z.to_nat (n + 1 - i)) lt :=
  fib_loop n a b i with Z_le_gt_dec i n => {
    | left _ =>
        let c := a + b in
        let a := b in
        let b := c in
        fib_loop n a b (i + 1)
    | right _ => b }.
Proof. lia. Qed.

Definition fibonacci_iterative (n : Z) : Z :=
  if n <=? 1 then n
  else
    let a := 0 in
    let b := 1 in
    fib_loop n a b 2.

(** The Fibonacci sequence as it is usually defined: F0 = 0, F1 = 1 and
    F(k+2) = F(k+1) + F(k).  Both C functions are compared with it. *)
Fixpoint fib_seq (k : nat) : Z :=
  match k with
  | O => 0
  | S k' =>
      match k' with
      | O => 1
      | S k'' => fib_seq k' + fib_seq k''
      end
  end.

End Fibonacci.

(** ** examples/string_encryption.c *)

Module StringEncryption.

(** The bytes of a string literal, without the terminating NUL. *)
Definition bytes_of (s : string) : list Z :=
  (fun c => Z.of_nat (Ascii.nat_of_ascii c)) <$> String.list_ascii_of_string s.

(** A string literal as it lies in memory: its bytes and a NUL. *)
Definition literal (s : string) : list Z := bytes_of s ++ [0].

(** The C string held by a buffer: the bytes before the first NUL.  A
    buffer that ends without a NUL is read as if a NUL followed it. *)
Fixpoint c_str (buf : list Z) : list Z :=
  match buf with
  | [] => []
  | c :: rest => if c =? 0 then [] else c :: c_str rest
  end.

(** [strcmp] of the C library (the corpus only declares it through
    <string.h>): compares byte by byte up to the first difference or the
    NUL, and returns the difference of the two bytes there. *)
Fixpoint strcmp (s1 s2 : list Z) : Z :=
  match s1, s2 with
  | [], [] => 0
  | [], c2 :: _ => 0 - c2
  | c1 :: _, [] => c1 - 0
  | c1 :: rest1, c2 :: rest2 =>
      if c1 =? c2 then (if c1 =? 0 then 0 else strcmp rest1 rest2)
      else c1 - c2
  end.

Definition authenticate (username password : list Z) : Z :=
  let valid_username := literal "admin" in
  let valid_password := literal "supersecret123" in
  if (strcmp username valid_username =? 0) &&
     (strcmp password valid_password =? 0)
  then 1
  else 0.

End StringEncryption.

(** ** rustcc/tests/complex.c *)

Module TestsComplex.
Import Switch.

Equations? factorial (n : Z) : Z by wf (Z.to_nat n) lt :=
  factorial n with Z_le_gt_dec n 1 => {
    | left _ => 1
    | right _ => n * factorial (n - 1) }.
Proof. lia. Qed.

Equations? fibonacci (n : Z) : Z by wf (Z.to_nat n) lt :=
  fibonacci n with Z_le_gt_dec n 0 => {
    | left _ => 0
    | right _ with Z.eq_dec n 1 => {
        | left _ => 1
        | right _ => fibonacci (n - 1) + fibonacci (n - 2) } }.
Proof. all: lia. Qed.

(** [arr[i]]: reading outside the array is undefined in C and gives no
    result here. *)
Definition index (arr : list Z) (i : Z) : option Z :=
  if i <? 0 then None else arr !! Z.to_nat i.

(** [for (int i = 0; i < size; i++) { sum += arr[i]; }] entered with the
    current [i] and [sum]. *)
Equations? sum_loop (arr : list Z) (size i sum : Z) : option Z
  by wf (Z.to_nat (size - i)) lt :=
  sum_loop arr size i sum with Z_lt_ge_dec i size => {
    | left _ =>
        match index arr i with
        | Some x => sum_loop arr size (i + 1) (sum + x)
        | None => None
        end
    | right _ => Some sum }.
Proof. lia. Qed.

Definition calculate_sum (arr : list Z) (size : Z) : option Z :=
  let sum := 0 in
  sum_loop arr size 0 sum.

(** [for (int i = 0; i < 3; i++) { z += i * 2; }] of [main]. *)
Equations? main_for (i z : Z) : Z by wf (Z.to_nat (3 - i)) lt :=
  main_for i z with Z_lt_ge_dec i 3 => {
    | left _ => main_for (i + 1) (z + i * 2)
    | right _ => z }.
Proof. lia. Qed.

(** [while (counter > 0) { z += counter; counter--; }] of [main]. *)
Equations? main_while (counter z : Z) : Z by wf (Z.to_nat counter) lt :=
  main_while counter z with Z_gt_le_dec counter 0 => {
    | left _ => main_while (counter - 1) (z + counter)
    | right _ => z }.
Proof. lia. Qed.

(** The [switch (result % 3)] that ends [main]. *)
Definition result_arms : list (arm Z Z) :=
  [ (Case 0, fun result => Brk (result + 5));
    (Case 1, fun result => Brk (result * 2));
    (Default, fun result => Brk (result - 1)) ].

(** The value of [z] when [main] reaches its function calls. *)
Definition main_z : Z :=
  let x := 42 in
  let y := 10 in
  let z := 0 in
  let z := if x >? y then x - y else y - x in
  let z := main_for 0 z in
  let counter := 5 in
  main_while counter z.

(** [main] gives no result if a step of it has none (an array read out
    of range). *)
Definition main : option Z :=
  let numbers := [5; 10; 15; 20; 25] in
  let z := main_z in
  let fact := factorial 4 in
  let fib := fibonacci 7 in
  match calculate_sum numbers 5 with
  | None => None
  | Some sum =>
      let result := z + Z.quot (fact * fib) (Z.rem sum 10 + 1) in
      match switch (Z.rem result 3) result_arms result with
      | Ret r => Some r
      | Fall result | Brk result => Some result
      end
  end.

End TestsComplex.

(** ** The text of the corpus

    Every file of the corpus, line by line and verbatim ([q] stands for
    the double-quote character), for the properties that are about the
    text of the programs rather than about what they compute. *)

Module Corpus.

Local Open Scope string_scope.

Definition q : string := String (Ascii.ascii_of_nat 34) EmptyString.

Definition examples_control_flow_c : list string :=
  [ "/**";
    " * Control flow example";
    " * ";
    " * This file demonstrates complex control flow that will be flattened";
    " * during the obfuscation process.";
    " */";
    EmptyString;
    "#include <stdio.h>";
    EmptyString;
    "/**";
    " * A function with nested conditionals that will be flattened during obfuscation";
    " */";
    "int process_value(int value) {";
    "    int result = 0;";
    "    ";
    "    // Complex nested conditional logic";
    "    if (value > 100) {";
    "        if (value % 2 == 0) {";
    "            result = value / 2;";
    "        } else {";
    "            result = (value * 3) + 1;";
    "        }";
    "    } else if (value > 50) {";
    "        if (value % 3 == 0) {";
    "            result = value * 3;";
    "        } else {";
    "            result = value - 10;";
    "        }";
    "    } else {";
    "        if (value % 2 == 0) {";
    "            result = value * value;";
    "        } else {";
    "            result = value + 1;";
    "        }";
    "    }";
    "    ";
    "    return result;";
    "}";
    EmptyString;
    "/**";
    " * A function with loops that will be flattened during obfuscation";
    " */";
    "int complex_loops(int n) {";
    "    int sum = 0;";
    "    ";
    "    // Nested loops";
    "    for (int i = 0; i < n; i++) {";
    "        if (i % 3 == 0) {";
    "            // Skip some iterations";
    "            continue;";
    "        }";
    "        ";
    "        for (int j = 0; j < i; j++) {";
    "            sum += i * j;";
    "            ";
    "            if (sum > 1000) {";
    "                // Early exit";
    "                break;";
    "            }";
    "        }";
    "        ";
    "        if (sum > 2000) {";
    "            // Early exit from outer loop";
    "            break;";
    "        }";
    "    }";
    "    ";
    "    return sum;";
    "}";
    EmptyString;
    "/**";
    " * A function with switch statements that will be flattened";
    " */";
    "int complex_switch(int code) {";
    "    int result = 0;";
    "    ";
    "    switch (code) {";
    "        case 1:";
    "            result = 100;";
    "            break;";
    "        case 2:";
    "            result = 200;";
    "            // Fallthrough intentional";
    "        case 3:";
    "            result += 300;";
    "            break;";
    "        case 4:";
    "        case 5:";
    "            result = 500;";
    "            break;";
    "        default:";
    "            result = -1;";
    "    }";
    "    ";
    "    // Nested switch";
    "    if (result > 0) {";
    "        switch (result) {";
    "            case 100:";
    "                return result * 2;";
    "            case 200:";
    "            case 500:";
    "                return result / 2;";
    "            case 600:";
    "                return result - 100;";
    "            default:";
    "                return result;";
    "        }";
    "    }";
    "    ";
    "    return result;";
    "}";
    EmptyString;
    "/**";
    " * Main function to demonstrate control flow obfuscation";
    " */";
    "int main() {";
    "    printf(" +:+ q +:+ "Processing 120: %d\n" +:+ q +:+ ", process_value(120));";
    "    printf(" +:+ q +:+ "Processing 75: %d\n" +:+ q +:+ ", process_value(75));";
    "    printf(" +:+ q +:+ "Processing 30: %d\n" +:+ q +:+ ", process_value(30));";
    "    ";
    "    printf(" +:+ q +:+ "Complex loops with n=10: %d\n" +:+ q +:+ ", complex_loops(10));";
    "    ";
    "    printf(" +:+ q +:+ "Switch with code 1: %d\n" +:+ q +:+ ", complex_switch(1));";
    "    printf(" +:+ q +:+ "Switch with code 2: %d\n" +:+ q +:+ ", complex_switch(2));";
    "    printf(" +:+ q +:+ "Switch with code 4: %d\n" +:+ q +:+ ", complex_switch(4));";
    "    ";
    "    return 0;";
    "} " ].

Definition examples_fibonacci_c : list string :=
  [ "/**";
    " * Fibonacci sequence example";
    " * ";
    " * This file demonstrates a simple recursive implementation of the Fibonacci sequence.";
    " * It will be used to show different optimization and obfuscation techniques.";
    " */";
    EmptyString;
    "#include <stdio.h>";
    EmptyString;
    "/**";
    " * Calculate the nth Fibonacci number recursively";
    " */";
    "int fibonacci(int n) {";
    "    // Base case";
    "    if (n <= 1) {";
    "        return n;";
    "    }";
    "    ";
    "    // Recursive case";
    "    return fibonacci(n-1) + fibonacci(n-2);";
    "}";
    EmptyString;
    "/**";
    " * Calculate Fibonacci numbers iteratively (more efficient)";
    " */";
    "int fibonacci_iterative(int n) {";
    "    if (n <= 1) {";
    "        return n;";
    "    }";
    "    ";
    "    int a = 0, b = 1, c;";
    "    for (int i = 2; i <= n; i++) {";
    "        c = a + b;";
    "        a = b;";
    "        b = c;";
    "    }";
    "    ";
    "    return b;";
    "}";
    EmptyString;
    "/**";
    " * Main function to demonstrate Fibonacci calculations";
    " */";
    "int main() {";
    "    int n = 10;";
    "    ";
    "    printf(" +:+ q +:+ "Fibonacci(%d) recursive = %d\n" +:+ q +:+ ", n, fibonacci(n));";
    "    printf(" +:+ q +:+ "Fibonacci(%d) iterative = %d\n" +:+ q +:+ ", n, fibonacci_iterative(n));";
    "    ";
    "    return 0;";
    "} " ].

Definition examples_string_encryption_c : list string :=
  [ "/**";
    " * String encryption example";
    " * ";
    " * This file demonstrates how RustCC's string encryption obfuscation works.";
    " * It contains several string literals that will be encrypted during obfuscation.";
    " */";
    EmptyString;
    "#include <stdio.h>";
    "#include <string.h>";
    EmptyString;
    "/**";
    " * Check if a username and password are valid";
    " * This function would be a target for reverse engineering in real applications";
    " */";
    "int authenticate(const char* username, const char* password) {";
    "    // These strings would be vulnerable to static analysis without obfuscation";
    "    const char* valid_username = " +:+ q +:+ "admin" +:+ q +:+ ";";
    "    const char* valid_password = " +:+ q +:+ "supersecret123" +:+ q +:+ ";";
    "    ";
    "    // Simple authentication check";
    "    if (strcmp(username, valid_username) == 0 && ";
    "        strcmp(password, valid_password) == 0) {";
    "        return 1; // Authentication successful";
    "    }";
    "    ";
    "    return 0; // Authentication failed";
    "}";
    EmptyString;
    "/**";
    " * Function with several string literals that would be obfuscated";
    " */";
    "void print_messages() {";
    "    printf(" +:+ q +:+ "Welcome to the secure system!\n" +:+ q +:+ ");";
    "    printf(" +:+ q +:+ "--------------------------------\n" +:+ q +:+ ");";
    "    printf(" +:+ q +:+ "This system contains sensitive information.\n" +:+ q +:+ ");";
    "    printf(" +:+ q +:+ "All access attempts are logged and monitored.\n" +:+ q +:+ ");";
    "    printf(" +:+ q +:+ "Unauthorized access is strictly prohibited.\n" +:+ q +:+ ");";
    "}";
    EmptyString;
    "/**";
    " * Main function to demonstrate string usage";
    " */";
    "int main() {";
    "    // Example strings that would be obfuscated";
    "    char username[64];";
    "    char password[64];";
    "    ";
    "    print_messages();";
    "    ";
    "    printf(" +:+ q +:+ "Enter username: " +:+ q +:+ ");";
    "    scanf(" +:+ q +:+ "%63s" +:+ q +:+ ", username);";
    "    ";
    "    printf(" +:+ q +:+ "Enter password: " +:+ q +:+ ");";
    "    scanf(" +:+ q +:+ "%63s" +:+ q +:+ ", password);";
    "    ";
    "    if (authenticate(username, password)) {";
    "        printf(" +:+ q +:+ "Authentication successful! Welcome, %s.\n" +:+ q +:+ ", username);";
    "        printf(" +:+ q +:+ "Access granted to secure data.\n" +:+ q +:+ ");";
    "    } else {";
    "        printf(" +:+ q +:+ "Authentication failed. Invalid credentials.\n" +:+ q +:+ ");";
    "        printf(" +:+ q +:+ "This attempt has been logged.\n" +:+ q +:+ ");";
    "    }";
    "    ";
    "    return 0;";
    "} " ].

Definition rustcc_include_stdio_h : list string :=
  [ "/**";
    " * stdio.h - Minimal implementation for testing";
    " * ";
    " * This is a simplified version of stdio.h for testing the RustCC preprocessor";
    " */";
    EmptyString;
    "#ifndef _STDIO_H";
    "#define _STDIO_H";
    EmptyString;
    "/* Standard I/O functions */";
    "int printf();";
    "int fprintf();";
    "int sprintf();";
    "int snprintf();";
    EmptyString;
    "/* File operations */";
    "typedef void FILE;";
    EmptyString;
    "/* Standard streams */";
    "#define stdin  0";
    "#define stdout 1";
    "#define stderr 2";
    EmptyString;
    "/* EOF definition */";
    "#define EOF (-1)";
    EmptyString;
    "#endif /* _STDIO_H */ " ].

Definition rustcc_test_complex_c : list string :=
  [ "#include <stdio.h>";
    "#include <stdlib.h>";
    EmptyString;
    "// Structure definition";
    "struct Point {";
    "    int x;";
    "    int y;";
    "    char label[20];";
    "};";
    EmptyString;
    "// Typedef example";
    "typedef struct {";
    "    int width;";
    "    int height;";
    "} Rectangle;";
    EmptyString;
    "// Enum example";
    "enum Color {";
    "    RED,";
    "    GREEN,";
    "    BLUE = 5,";
    "    YELLOW";
    "};";
    EmptyString;
    "// Global variables";
    "int global_var = 42;";
    "char global_array[10] = {'H', 'e', 'l', 'l', 'o'};";
    EmptyString;
    "// Function declaration";
    "int add(int a, int b);";
    EmptyString;
    "// Function with array parameter";
    "void print_array(int arr[], int size);";
    EmptyString;
    "// Function with variadic arguments";
    "int sum_values(int count, ...);";
    EmptyString;
    "// Main function with complex features";
    "int main(int argc, char *argv[]) {";
    "    // Local variables with different types";
    "    int x = 10;";
    "    char c = 'A';";
    "    int *ptr = &x;";
    "    int numbers[5] = {1, 2, 3, 4, 5};";
    "    ";
    "    // Struct usage";
    "    struct Point p1 = {10, 20, " +:+ q +:+ "Point 1" +:+ q +:+ "};";
    "    Rectangle rect = {30, 40};";
    "    ";
    "    // Enum usage";
    "    enum Color color = GREEN;";
    "    ";
    "    // Control structures";
    "    if (x > 5) {";
    "        printf(" +:+ q +:+ "x is greater than 5\n" +:+ q +:+ ");";
    "    } else {";
    "        printf(" +:+ q +:+ "x is not greater than 5\n" +:+ q +:+ ");";
    "    }";
    "    ";
    "    // For loop";
    "    for (int i = 0; i < 5; i++) {";
    "        printf(" +:+ q +:+ "%d " +:+ q +:+ ", numbers[i]);";
    "    }";
    "    printf(" +:+ q +:+ "\n" +:+ q +:+ ");";
    "    ";
    "    // While loop";
    "    int j = 0;";
    "    while (j < 3) {";
    "        printf(" +:+ q +:+ "j = %d\n" +:+ q +:+ ", j);";
    "        j++;";
    "    }";
    "    ";
    "    // Do-while loop";
    "    int k = 0;";
    "    do {";
    "        printf(" +:+ q +:+ "k = %d\n" +:+ q +:+ ", k);";
    "        k++;";
    "    } while (k < 3);";
    "    ";
    "    // Switch statement";
    "    switch (color) {";
    "        case RED:";
    "            printf(" +:+ q +:+ "Color is red\n" +:+ q +:+ ");";
    "            break;";
    "        case GREEN:";
    "            printf(" +:+ q +:+ "Color is green\n" +:+ q +:+ ");";
    "            break;";
    "        case BLUE:";
    "            printf(" +:+ q +:+ "Color is blue\n" +:+ q +:+ ");";
    "            break;";
    "        default:";
    "            printf(" +:+ q +:+ "Unknown color\n" +:+ q +:+ ");";
    "            break;";
    "    }";
    "    ";
    "    // Function calls";
    "    int sum = add(10, 20);";
    "    printf(" +:+ q +:+ "Sum: %d\n" +:+ q +:+ ", sum);";
    "    ";
    "    print_array(numbers, 5);";
    "    ";
    "    // Pointer operations";
    "    *ptr = 20;";
    "    printf(" +:+ q +:+ "x = %d\n" +:+ q +:+ ", x);";
    "    ";
    "    // Struct member access";
    "    p1.x = 15;";
    "    printf(" +:+ q +:+ "p1.x = %d\n" +:+ q +:+ ", p1.x);";
    "    ";
    "    // Ternary operator";
    "    int max = (x > j) ? x : j;";
    "    printf(" +:+ q +:+ "Max: %d\n" +:+ q +:+ ", max);";
    "    ";
    "    // Sizeof operator";
    "    printf(" +:+ q +:+ "Size of int: %zu\n" +:+ q +:+ ", sizeof(int));";
    "    printf(" +:+ q +:+ "Size of Point: %zu\n" +:+ q +:+ ", sizeof(struct Point));";
    "    ";
    "    return 0;";
    "}";
    EmptyString;
    "// Function definition";
    "int add(int a, int b) {";
    "    return a + b;";
    "}";
    EmptyString;
    "// Function with array parameter implementation";
    "void print_array(int arr[], int size) {";
    "    for (int i = 0; i < size; i++) {";
    "        printf(" +:+ q +:+ "%d " +:+ q +:+ ", arr[i]);";
    "    }";
    "    printf(" +:+ q +:+ "\n" +:+ q +:+ ");";
    "} " ].

Definition rustcc_tests_complex_c : list string :=
  [ "// Complex C program with various control structures and operations";
    "#include <stdio.h>";
    EmptyString;
    "int factorial(int n) {";
    "    if (n <= 1)";
    "        return 1;";
    "    return n * factorial(n - 1);";
    "}";
    EmptyString;
    "int fibonacci(int n) {";
    "    if (n <= 0)";
    "        return 0;";
    "    if (n == 1)";
    "        return 1;";
    "    return fibonacci(n - 1) + fibonacci(n - 2);";
    "}";
    EmptyString;
    "int calculate_sum(int arr[], int size) {";
    "    int sum = 0;";
    "    for (int i = 0; i < size; i++) {";
    "        sum += arr[i];";
    "    }";
    "    return sum;";
    "}";
    EmptyString;
    "int main() {";
    "    // Variable declarations and initializations";
    "    int x = 42;";
    "    int y = 10;";
    "    int z = 0;";
    "    ";
    "    // Array initialization";
    "    int numbers[5] = {5, 10, 15, 20, 25};";
    "    ";
    "    // Conditional branching";
    "    if (x > y) {";
    "        z = x - y;";
    "    } else {";
    "        z = y - x;";
    "    }";
    "    ";
    "    // Loop structure";
    "    for (int i = 0; i < 3; i++) {";
    "        z += i * 2;";
    "    }";
    "    ";
    "    // While loop";
    "    int counter = 5;";
    "    while (counter > 0) {";
    "        z += counter;";
    "        counter--;";
    "    }";
    "    ";
    "    // Function calls";
    "    int fact = factorial(4);";
    "    int fib = fibonacci(7);";
    "    int sum = calculate_sum(numbers, 5);";
    "    ";
    "    // Compound calculation";
    "    int result = z + (fact * fib) / (sum % 10 + 1);";
    "    ";
    "    // Switch statement";
    "    switch (result % 3) {";
    "        case 0:";
    "            result += 5;";
    "            break;";
    "        case 1:";
    "            result *= 2;";
    "            break;";
    "        default:";
    "            result -= 1;";
    "            break;";
    "    }";
    "    ";
    "    return result;";
    "}" ].

Definition rustcc_tests_control_flow_c : list string :=
  [ "// A C program with various control flow statements";
    "int main() {";
    "    int sum = 0;";
    "    ";
    "    // For loop";
    "    for (int i = 0; i < 10; i++) {";
    "        sum += i;";
    "    }";
    "    ";
    "    // While loop";
    "    int j = 0;";
    "    while (j < 5) {";
    "        sum += j;";
    "        j++;";
    "    }";
    "    ";
    "    // If-else statements";
    "    if (sum > 50) {";
    "        return 1;";
    "    } else if (sum > 30) {";
    "        return 2;";
    "    } else {";
    "        return 0;";
    "    }";
    "}";
    EmptyString ].

Definition rustcc_tests_strings_c : list string :=
  [ "// A C program with string operations";
    "#include <stdio.h>";
    "#include <string.h>";
    EmptyString;
    "int main() {";
    "    char greeting[] = " +:+ q +:+ "Hello, world!" +:+ q +:+ ";";
    "    char name[] = " +:+ q +:+ "Rust" +:+ q +:+ ";";
    "    char message[50];";
    "    ";
    "    // String manipulation";
    "    strcpy(message, greeting);";
    "    strcat(message, " +:+ q +:+ " I am " +:+ q +:+ ");";
    "    strcat(message, name);";
    "    ";
    "    // Using a string in a condition";
    "    if (strcmp(name, " +:+ q +:+ "Rust" +:+ q +:+ ") == 0) {";
    "        return 0;";
    "    } else {";
    "        return 1;";
    "    }";
    "}";
    EmptyString ].

Definition simple_complex_c : list string :=
  [ "// Structure definition";
    "struct Point {";
    "    int x;";
    "    int y;";
    "};";
    EmptyString;
    "// Global variables";
    "int global_var = 42;";
    EmptyString;
    "// Function declaration";
    "int add(int a, int b);";
    EmptyString;
    "// Main function with complex features";
    "int main() {";
    "    // Local variables with different types";
    "    int x = 10;";
    "    char c = 'A';";
    "    int numbers[5] = {1, 2, 3, 4, 5};";
    "    ";
    "    // Struct usage";
    "    struct Point p1;";
    "    p1.x = 10;";
    "    p1.y = 20;";
    "    ";
    "    // Control structures";
    "    if (x > 5) {";
    "        x = x + 1;";
    "    } else {";
    "        x = x - 1;";
    "    }";
    "    ";
    "    // For loop";
    "    int sum = 0;";
    "    for (int i = 0; i < 5; i++) {";
    "        sum = sum + numbers[i];";
    "    }";
    "    ";
    "    // While loop";
    "    int j = 0;";
    "    while (j < 3) {";
    "        j = j + 1;";
    "    }";
    "    ";
    "    // Do-while loop";
    "    int k = 0;";
    "    do {";
    "        k = k + 1;";
    "    } while (k < 3);";
    "    ";
    "    // Function calls";
    "    int result = add(10, 20);";
    "    ";
    "    // Ternary operator";
    "    int max = (x > j) ? x : j;";
    "    ";
    "    return result;";
    "}";
    EmptyString;
    "// Function definition";
    "int add(int a, int b) {";
    "    return a + b;";
    "} " ].

(** The corpus: each file under its path, with its lines. *)
Definition files : list (string * list string) :=
  [ ("examples/control_flow.c", examples_control_flow_c);
    ("examples/fibonacci.c", examples_fibonacci_c);
    ("examples/string_encryption.c", examples_string_encryption_c);
    ("rustcc/include/stdio.h", rustcc_include_stdio_h);
    ("rustcc/test/complex.c", rustcc_test_complex_c);
    ("rustcc/tests/complex.c", rustcc_tests_complex_c);
    ("rustcc/tests/control_flow.c", rustcc_tests_control_flow_c);
    ("rustcc/tests/strings.c", rustcc_tests_strings_c);
    ("simple_complex.c", simple_complex_c) ].

(** [occurs pat s]: the text [pat] appears somewhere in [s]. *)
Fixpoint occurs (pat s : string) : bool :=
  String.prefix pat s ||
  match s with
  | EmptyString => false
  | String _ rest => occurs pat rest
  end.

(** The lines with their numbers, counted from [n]. *)
Fixpoint numbered (n : nat) (lines : list string) : list (nat * string) :=
  match lines with
  | [] => []
  | l :: rest => (n, l) :: numbered (S n) rest
  end.

(** The places (file, line number) whose line contains [pat]. *)
Definition places_in (pat : string) (file : string * list string) : list (string * nat) :=
  (fun nl => (file.1, nl.1)) <$>
    filter (fun nl => occurs pat nl.2 = true) (numbered 1 file.2).

Definition places (pat : string) : list (string * nat) :=
  mjoin (places_in pat <$> files).

End Corpus.

(** ** The range of [int] *)

Module IntRange.

Definition INT_MIN : Z := -2147483648.
Definition INT_MAX : Z := 2147483647.

(** The value fits a 32-bit [int]: computing it does not overflow. *)
Definition fits (z : Z) : Prop := INT_MIN <= z <= INT_MAX.

End IntRange.

(** ** Output through [printf] *)

Module Stdio.

(** An argument after the format: an [int], or the C string that a
    [char*] points to. *)
Inductive arg : Type :=
| AInt (z : Z)
| AStr (s : list Z).

(** One call of [printf]: the format as it is written in the source (an
    escape such as [\n] stays as written) and the arguments. *)
Definition call : Type := (string * list arg)%type.

End Stdio.

(** ** examples/string_encryption.c: [print_messages] and [main] *)

Module StringEncryptionMain.
Import Stdio.

(** What [print_messages] prints. *)
Definition print_messages : list call :=
  [ ("Welcome to the secure system!\n", []);
    ("--------------------------------\n", []);
    ("This system contains sensitive information.\n", []);
    ("All access attempts are logged and monitored.\n", []);
    ("Unauthorized access is strictly prohibited.\n", []) ].

(** [main], given what the two calls of [scanf] have stored in the
    buffers [username] and [password] ([scanf] is not part of the
    corpus): the calls of [printf] in order, and the returned value. *)
Definition main (username password : list Z) : list call * Z :=
  let out := print_messages in
  let out := out ++ [("Enter username: ", [])] in
  let out := out ++ [("Enter password: ", [])] in
  if negb (StringEncryption.authenticate username password =? 0) then
    let out := out ++ [("Authentication successful! Welcome, %s.\n",
                        [AStr (StringEncryption.c_str username)])] in
    let out := out ++ [("Access granted to secure data.\n", [])] in
    (out, 0)
  else
    let out := out ++ [("Authentication failed. Invalid credentials.\n", [])] in
    let out := out ++ [("This attempt has been logged.\n", [])] in
    (out, 0).

End StringEncryptionMain.

(** ** rustcc/test/complex.c: [print_array] *)

Module TestComplex.
Import Stdio.

(** [for (int i = 0; i < size; i++) { printf("%d ", arr[i]); }] entered
    with the current [i] and the output so far; no result when [arr] is
    read out of range. *)
Equations? print_loop (arr : list Z) (size i : Z) (out : list call)
  : option (list call) by wf (Z.to_nat (size - i)) lt :=
  print_loop arr size i out with Z_lt_ge_dec i size => {
    | left _ =>
        match TestsComplex.index arr i with
        | Some x => print_loop arr size (i + 1) (out ++ [("%d ", [AInt x])])
        | None => None
        end
    | right _ => Some out }.
Proof. lia. Qed.

Definition print_array (arr : list Z) (size : Z) : option (list call) :=
  match print_loop arr size 0 [] with
  | Some out => Some (out ++ [("\n", [])])
  | None => None
  end.

End TestComplex.

(** ** The transformation pipeline

    The snapshot holds the corpus only; the compiler that flattens and
    encrypts is described by the specification and modelled from it here:
    the data model of its section 3, the flattening pass of 4.4 and the
    string-encryption pass of 4.5.

    The model is a fragment.  The control-flow-graph builder of 4.3 is
    not modelled: a function enters the pipeline as its graph.  There is
    no memory: a variable holds an integer or a string, so the
    expressions [Index], [Member], [Deref] and [Sizeof], arrays,
    pointers, struct members and buffers that a call fills are outside
    it, and the use of an encrypted literal is an expression that
    decrypts, not a buffer at an address of its own.  What is proved
    about the passes below holds for this fragment; it is not a
    statement about the programs of the corpus that use memory. *)

(** The result of running a piece of program with bounded loops: a
    result, a run-time error, or the bound was reached. *)
Inductive res (A : Type) : Type :=
| Ok (a : A)
| Stuck
| Timeout.
Arguments Ok {A} a.
Arguments Stuck {A}.
Arguments Timeout {A}.

Global Instance res_ret : MRet res := fun A a => Ok a.
Global Instance res_bind : MBind res := fun A B k m =>
  match m with
  | Ok a => k a
  | Stuck => Stuck
  | Timeout => Timeout
  end.

Module Ast.

(* Induction principles that go through the lists, options and pairs
   inside the syntax trees below. *)
Scheme All for list.
Scheme All for option.
Scheme All for prod.

Inductive val : Type :=
| VInt (z : Z)
| VStr (s : list Z)
| VVoid.

Inductive binop : Type :=
| Add | Sub | Mul | Div | Mod | Lt | Le | Gt | Ge | Eq | Ne.

Inductive unop : Type :=
| Neg | Not.

(** Modelled from the spec: the expressions of the AST of section 3,
    without the forms that need a memory layout ([Index], [Member],
    [Deref], [Sizeof]); [Decrypted] is the use site of an encrypted
    literal that the string-encryption pass leaves behind: the cipher
    bytes, the key, and a decryption before the use, which then reads
    the decrypted bytes. *)
Inductive expr : Type :=
| LiteralInt (z : Z)
| LiteralString (s : list Z)
| Decrypted (cipher key : list Z)
| Ident (x : string)
| BinaryOp (op : binop) (a b : expr)
| UnaryOp (op : unop) (a : expr)
| Call (f : string) (args : list expr)
| Ternary (c a b : expr)
| Assign (x : string) (e : expr).

(** Modelled from the spec: the statements of the AST of section 3
    ([For] and [DoWhile] are left out; the flattened form needs none of
    them).  A [Switch] has its ordered (label, statements) cases and an
    optional default, which comes last. *)
Inductive stmt : Type :=
| Block (body : list stmt)
| If (c : expr) (t e : stmt)
| While (c : expr) (body : stmt)
| Switch (v : expr) (cases : list (Z * list stmt)) (default : option (list stmt))
| Break
| Continue
| Return (e : option expr)
| ExprStatement (e : expr)
| VarDecl (x : string) (init : option expr).

End Ast.

Module Cfg.
Import Ast.

(** Modelled from the spec: the terminator of a basic block (section 3);
    edges are block ids. *)
Inductive terminator : Type :=
| Fallthrough (next : nat)
| Branch (cond : expr) (then_ else_ : nat)
| Return (e : option expr)
| SwitchDispatch (value : expr) (cases : list (Z * nat)) (default : nat).

(** Modelled from the spec: a basic block is its straight-line statements
    and its terminator; its id is its index in the block array. *)
Record block : Type := Build_block {
  stmts : list stmt;
  term : terminator
}.

(** Modelled from the spec: the CFG of a function is an entry block id,
    an exit block id and the block array. *)
Record cfg : Type := Build_cfg {
  entry : nat;
  exit : nat;
  blocks : list block
}.

End Cfg.

(** A function before the flattening pass (its graph) or after it (a
    statement tree again). *)
Inductive body : Type :=
| Graph (g : Cfg.cfg)
| Tree (ss : list Ast.stmt).

Record func : Type := Build_func {
  params : list string;
  fbody : body
}.

(** A translation unit: its functions in declaration order. *)
Definition program : Type := list (string * func).

(** *** The string cipher *)

Module Cipher.

(** Modelled from the spec: the key stream of a literal repeats the
    bytes of its key (an empty key gives a stream of zeros). *)
Definition keystream (key : list Z) (i : nat) : Z :=
  nth (i mod length key)%nat key 0.

Fixpoint combine_from (key : list Z) (i : nat) (bytes : list Z) : list Z :=
  match bytes with
  | [] => []
  | b :: rest => Z.lxor b (keystream key i) :: combine_from key (S i) rest
  end.

(** Modelled from the spec: encryption is the byte-wise combination
    (exclusive or) of the literal with its key stream. *)
Definition encrypt (key original : list Z) : list Z :=
  combine_from key 0 original.

(** Modelled from the spec: decryption combines the cipher bytes with the
    same key stream. *)
Definition decrypt (key cipher : list Z) : list Z :=
  combine_from key 0 cipher.

(** Modelled from the spec: the Encrypted Literal record of section 3. *)
Record encrypted_literal : Type := Build_encrypted_literal {
  original : list Z;
  key : list Z;
  cipher : list Z
}.

(** Modelled from the spec: the record of the literal [lit] under the
    key [k]. *)
Definition make (k lit : list Z) : encrypted_literal :=
  Build_encrypted_literal lit k (encrypt k lit).

(** The invariant of an Encrypted Literal. *)
Definition round_trips (r : encrypted_literal) : Prop :=
  decrypt (key r) (cipher r) = original r.

End Cipher.

(** *** Running programs *)

(** The local variables of one function activation. *)
Abbreviation env := (gmap string Ast.val).

(** How a statement ends. *)
Inductive signal : Type :=
| Normal
| Broke
| Continued
| Returned (v : Ast.val).

Section Semantics.
Import Ast.

(** What lies outside the functions of the translation unit: the output
    written so far, the input still to be read, storage shared between
    functions.  [extern] runs a built-in (an I/O function of the stand-in
    header, a library function) on it. *)
Context {world : Type}.
Variable extern : string -> list val -> world -> res (val * world).

(** A result, with the frame [fr] laid over the frame it ends in. *)
Definition framed {A} (fr : env) (r : res (A * env * world)) : res (A * env * world) :=
  match r with
  | Ok (a, ρ, w) => Ok (a, fr ∪ ρ, w)
  | Stuck => Stuck
  | Timeout => Timeout
  end.

Definition as_int (v : val) : res Z :=
  match v with
  | VInt z => Ok z
  | _ => Stuck
  end.

Definition of_bool (b : bool) : Z := if b then 1 else 0.

Definition eval_binop (op : binop) (x y : Z) : res Z :=
  match op with
  | Add => Ok (x + y)
  | Sub => Ok (x - y)
  | Mul => Ok (x * y)
  | Div => if y =? 0 then Stuck else Ok (Z.quot x y)
  | Mod => if y =? 0 then Stuck else Ok (Z.rem x y)
  | Lt => Ok (of_bool (x <? y))
  | Le => Ok (of_bool (x <=? y))
  | Gt => Ok (of_bool (x >? y))
  | Ge => Ok (of_bool (x >=? y))
  | Eq => Ok (of_bool (x =? y))
  | Ne => Ok (of_bool (negb (x =? y)))
  end.

Definition eval_unop (op : unop) (x : Z) : Z :=
  match op with
  | Neg => - x
  | Not => of_bool (x =? 0)
  end.

Section Bodies.

(** How a call is run: given by the caller of this section (a function of
    the translation unit, or a built-in). *)
Variable call : string -> list val -> world -> res (val * world).

(** The number of iterations a loop may take before [Timeout]. *)
Variable fuel : nat.

(** Operands and arguments are evaluated from left to right; a side
    effect (an assignment, a call) happens where the expression is
    evaluated. *)
Fixpoint eval (e : expr) (ρ : env) (w : world) : res (val * env * world) :=
  match e with
  | LiteralInt z => Ok (VInt z, ρ, w)
  | LiteralString s => Ok (VStr s, ρ, w)
  | Decrypted cipher key => Ok (VStr (Cipher.decrypt key cipher), ρ, w)
  | Ident x =>
      match ρ !! x with
      | Some v => Ok (v, ρ, w)
      | None => Stuck
      end
  | BinaryOp op a b =>
      '(va, ρ1, w1) ← eval a ρ w;
      '(vb, ρ2, w2) ← eval b ρ1 w1;
      x ← as_int va;
      y ← as_int vb;
      z ← eval_binop op x y;
      Ok (VInt z, ρ2, w2)
  | UnaryOp op a =>
      '(va, ρ1, w1) ← eval a ρ w;
      x ← as_int va;
      Ok (VInt (eval_unop op x), ρ1, w1)
  | Call f args =>
      '(vs, ρ1, w1) ←
        (fix eval_args (l : list expr) (ρ : env) (w : world)
           : res (list val * env * world) :=
           match l with
           | [] => Ok ([], ρ, w)
           | a :: l' =>
               '(v, ρ1, w1) ← eval a ρ w;
               '(vs, ρ2, w2) ← eval_args l' ρ1 w1;
               Ok (v :: vs, ρ2, w2)
           end) args ρ w;
      '(v, w2) ← call f vs w1;
      Ok (v, ρ1, w2)
  | Ternary c a b =>
      '(vc, ρ1, w1) ← eval c ρ w;
      x ← as_int vc;
      if x =? 0 then eval b ρ1 w1 else eval a ρ1 w1
  | Assign x e =>
      '(v, ρ1, w1) ← eval e ρ w;
      Ok (v, <[x := v]> ρ1, w1)
  end.

Fixpoint eval_args (l : list expr) (ρ : env) (w : world)
  : res (list val * env * world) :=
  match l with
  | [] => Ok ([], ρ, w)
  | a :: l' =>
      '(v, ρ1, w1) ← eval a ρ w;
      '(vs, ρ2, w2) ← eval_args l' ρ1 w1;
      Ok (v :: vs, ρ2, w2)
  end.

(** A sequence of statements stops at the first one that does not end
    normally. *)
Definition exec_seq (run : stmt -> env -> world -> res (signal * env * world))
  : list stmt -> env -> world -> res (signal * env * world) :=
  fix go (l : list stmt) (ρ : env) (w : world) :=
    match l with
    | [] => Ok (Normal, ρ, w)
    | s :: l' =>
        '(sg, ρ1, w1) ← run s ρ w;
        match sg with
        | Normal => go l' ρ1 w1
        | _ => Ok (sg, ρ1, w1)
        end
    end.

(** The cases of a [switch] on the value [z], in order: a case is entered
    when its label is [z], or when the case before it was entered and
    fell through.  The result tells whether a case was entered. *)
Definition exec_cases (run : list stmt -> env -> world -> res (signal * env * world))
  (z : Z)
  : bool -> list (Z * list stmt) -> env -> world -> res (bool * signal * env * world) :=
  fix go (entered : bool) (cases : list (Z * list stmt)) (ρ : env) (w : world) :=
    match cases with
    | [] => Ok (entered, Normal, ρ, w)
    | (l, ss) :: rest =>
        if entered || (z =? l) then
          '(sg, ρ1, w1) ← run ss ρ w;
          match sg with
          | Normal => go true rest ρ1 w1
          | _ => Ok (true, sg, ρ1, w1)
          end
        else go false rest ρ w
    end.

(** [while (c) body]: the condition is evaluated before each iteration;
    [break] ends the loop, [continue] goes to the next evaluation of the
    condition.  The loop may take [k] iterations. *)
Definition while_loop (body : env -> world -> res (signal * env * world)) (c : expr)
  : nat -> env -> world -> res (signal * env * world) :=
  fix loop (k : nat) (ρ : env) (w : world) :=
    '(vc, ρ1, w1) ← eval c ρ w;
    x ← as_int vc;
    if x =? 0 then Ok (Normal, ρ1, w1)
    else
      match k with
      | O => Timeout
      | S k' =>
          '(sg, ρ2, w2) ← body ρ1 w1;
          match sg with
          | Normal | Continued => loop k' ρ2 w2
          | Broke => Ok (Normal, ρ2, w2)
          | Returned v => Ok (Returned v, ρ2, w2)
          end
      end.

(** A [break] ends the [switch] it is in; [continue] and [return] go
    further out. *)
Definition after_switch (sg : signal) : signal :=
  match sg with
  | Broke => Normal
  | _ => sg
  end.

Fixpoint exec (s : stmt) (ρ : env) (w : world) : res (signal * env * world) :=
  match s with
  | Block ss => exec_seq exec ss ρ w
  | If c t e =>
      '(vc, ρ1, w1) ← eval c ρ w;
      x ← as_int vc;
      if x =? 0 then exec e ρ1 w1 else exec t ρ1 w1
  | While c b => while_loop (exec b) c fuel ρ w
  | Switch v cases default =>
      '(vv, ρ1, w1) ← eval v ρ w;
      z ← as_int vv;
      '(entered, sg, ρ2, w2) ← exec_cases (exec_seq exec) z false cases ρ1 w1;
      match sg, default with
      | Normal, Some ss =>
          '(sg', ρ3, w3) ← exec_seq exec ss ρ2 w2;
          Ok (after_switch sg', ρ3, w3)
      | _, _ => Ok (after_switch sg, ρ2, w2)
      end
  | Break => Ok (Broke, ρ, w)
  | Continue => Ok (Continued, ρ, w)
  | Return None => Ok (Returned VVoid, ρ, w)
  | Return (Some e) =>
      '(v, ρ1, w1) ← eval e ρ w;
      Ok (Returned v, ρ1, w1)
  | ExprStatement e =>
      '(_, ρ1, w1) ← eval e ρ w;
      Ok (Normal, ρ1, w1)
  | VarDecl x None => Ok (Normal, ρ, w)
  | VarDecl x (Some e) =>
      '(v, ρ1, w1) ← eval e ρ w;
      Ok (Normal, <[x := v]> ρ1, w1)
  end.

(** The body of a function that is a statement tree: falling off its end
    returns no value. *)
Definition run_tree (ss : list stmt) (ρ : env) (w : world) : res (val * world) :=
  '(sg, _, w1) ← exec_seq exec ss ρ w;
  match sg with
  | Returned v => Ok (v, w1)
  | Normal => Ok (VVoid, w1)
  | Broke | Continued => Stuck
  end.

(** The straight-line statements of a basic block. *)
Definition exec_straight (ss : list stmt) (ρ : env) (w : world) : res (env * world) :=
  '(sg, ρ1, w1) ← exec_seq exec ss ρ w;
  match sg with
  | Normal => Ok (ρ1, w1)
  | _ => Stuck
  end.

(** The block a [SwitchDispatch] goes to. *)
Fixpoint dispatch (z : Z) (cases : list (Z * nat)) (default : nat) : nat :=
  match cases with
  | [] => default
  | (l, b) :: rest => if z =? l then b else dispatch z rest default
  end.

(** Where a terminator leads: to a block, or out of the function with its
    value. *)
Definition exec_term (t : Cfg.terminator) (ρ : env) (w : world)
  : res ((nat + val) * env * world) :=
  match t with
  | Cfg.Fallthrough next => Ok (inl next, ρ, w)
  | Cfg.Branch c a b =>
      '(vc, ρ1, w1) ← eval c ρ w;
      x ← as_int vc;
      Ok (inl (if x =? 0 then b else a), ρ1, w1)
  | Cfg.Return None => Ok (inr VVoid, ρ, w)
  | Cfg.Return (Some e) =>
      '(v, ρ1, w1) ← eval e ρ w;
      Ok (inr v, ρ1, w1)
  | Cfg.SwitchDispatch v cases default =>
      '(vv, ρ1, w1) ← eval v ρ w;
      z ← as_int vv;
      Ok (inl (dispatch z cases default), ρ1, w1)
  end.

(** Modelled from the spec: running a CFG from block [pc]: the block's
    statements, then its terminator, for at most [k] blocks.  A [Return]
    ends the run with the value of its expression: the edge to the exit
    block carries the value, and the exit block has nothing to run. *)
Fixpoint run_cfg (g : Cfg.cfg) (k : nat) (pc : nat) (ρ : env) (w : world)
  : res (val * world) :=
  match Cfg.blocks g !! pc with
  | None => Stuck
  | Some b =>
      match k with
      | O => Timeout
      | S k' =>
          '(ρ1, w1) ← exec_straight (Cfg.stmts b) ρ w;
          '(next, ρ2, w2) ← exec_term (Cfg.term b) ρ1 w1;
          match next with
          | inl pc' => run_cfg g k' pc' ρ2 w2
          | inr v => Ok (v, w2)
          end
      end
  end.

Definition run_body (b : body) (ρ : env) (w : world) : res (val * world) :=
  match b with
  | Graph g => run_cfg g fuel (Cfg.entry g) ρ w
  | Tree ss => run_tree ss ρ w
  end.

End Bodies.

(** The parameters bound to the arguments; no frame if their numbers
    differ. *)
Fixpoint bind_params (ps : list string) (vs : list val) : option env :=
  match ps, vs with
  | [], [] => Some ∅
  | p :: ps', v :: vs' => (fun ρ => <[p := v]> ρ) <$> bind_params ps' vs'
  | _, _ => None
  end.

Fixpoint lookup_func (p : program) (f : string) : option func :=
  match p with
  | [] => None
  | (name, fn) :: rest => if decide (name = f) then Some fn else lookup_func rest f
  end.

(** A call to [f]: a function of the translation unit runs its body in a
    fresh frame, any other name is a built-in.  [n] bounds both the depth
    of the calls and the iterations of each loop. *)
Fixpoint call_fn (p : program) (n : nat) (f : string) (args : list val) (w : world)
  : res (val * world) :=
  match n with
  | O => Timeout
  | S n' =>
      match lookup_func p f with
      | None => extern f args w
      | Some fn =>
          match bind_params (params fn) args with
          | None => Stuck
          | Some ρ => run_body (call_fn p n') n' (fbody fn) ρ w
          end
      end
  end.

End Semantics.

(** *** The flattening pass *)

Section Flattening.
Import Ast.

(** The variables of the dispatcher: the state, the done flag and the
    value to return. *)
Definition STATE : string := "__state".
Definition DONE : string := "__done".
Definition RET : string := "__ret".

Definition reserved (x : string) : bool :=
  bool_decide (x = STATE) || bool_decide (x = DONE) || bool_decide (x = RET).

(** The numbering of the blocks: the state id of each block id. *)
Variable num : nat -> Z.

Definition set_state (e : expr) : stmt := ExprStatement (Assign STATE e).

(** Modelled from the spec: the code that computes the next state from a
    terminator: a constant for [Fallthrough], a two-way choice on the
    condition for [Branch], a value-to-state mapping for
    [SwitchDispatch]; a [Return] state keeps the value of the return
    expression and sets the done flag. *)
Definition next_state (t : Cfg.terminator) : list stmt :=
  match t with
  | Cfg.Fallthrough next => [set_state (LiteralInt (num next))]
  | Cfg.Branch c a b =>
      [set_state (Ternary c (LiteralInt (num a)) (LiteralInt (num b)))]
  | Cfg.Return None => [ExprStatement (Assign DONE (LiteralInt 1))]
  | Cfg.Return (Some e) =>
      [ExprStatement (Assign RET e); ExprStatement (Assign DONE (LiteralInt 1))]
  | Cfg.SwitchDispatch v cases default =>
      [Switch v
         ((fun c : Z * nat => (c.1, [set_state (LiteralInt (num c.2)); Break])) <$> cases)
         (Some [set_state (LiteralInt (num default))])]
  end.

(** Modelled from the spec: the arm of a state: the block's statements,
    then the next-state code, then the way back to the loop. *)
Definition arm (i : nat) (b : Cfg.block) : Z * list stmt :=
  (num i, Cfg.stmts b ++ next_state (Cfg.term b) ++ [Break]).

(** The arms of the blocks [bs], the first of which has id [i]. *)
Fixpoint arms_from (i : nat) (bs : list Cfg.block) : list (Z * list stmt) :=
  match bs with
  | [] => []
  | b :: rest => arm i b :: arms_from (S i) rest
  end.

(** Modelled from the spec: the one dispatch construct, keyed on the
    state variable, with one arm for each block. *)
Definition dispatch_on_state (g : Cfg.cfg) : stmt :=
  Switch (Ident STATE) (arms_from 0 (Cfg.blocks g)) None.

Definition returns_value (g : Cfg.cfg) : bool :=
  existsb (fun b => match Cfg.term b with
                    | Cfg.Return (Some _) => true
                    | _ => false
                    end) (Cfg.blocks g).

(** Modelled from the spec: the flattened function: the state variable
    starts at the entry block's state, and one loop, which goes on while
    the function is not done, holds one dispatch on the state. *)
Definition flatten (g : Cfg.cfg) : list stmt :=
  [ VarDecl STATE (Some (LiteralInt (num (Cfg.entry g))));
    VarDecl DONE (Some (LiteralInt 0));
    While (UnaryOp Not (Ident DONE)) (dispatch_on_state g);
    Ast.Return (if returns_value g then Some (Ident RET) else None) ].

(** **** What the pass expects of its input *)

(** The expression reads or writes a variable of the dispatcher. *)
Fixpoint uses_reserved (e : expr) : bool :=
  match e with
  | LiteralInt _ | LiteralString _ | Decrypted _ _ => false
  | Ident x => reserved x
  | BinaryOp _ a b => uses_reserved a || uses_reserved b
  | UnaryOp _ a => uses_reserved a
  | Call _ args => existsb uses_reserved args
  | Ternary c a b => uses_reserved c || uses_reserved a || uses_reserved b
  | Assign x e => reserved x || uses_reserved e
  end.

(** A straight-line statement that leaves the dispatcher's variables
    alone. *)
Definition straight (s : stmt) : bool :=
  match s with
  | ExprStatement e => negb (uses_reserved e)
  | VarDecl x None => negb (reserved x)
  | VarDecl x (Some e) => negb (reserved x) && negb (uses_reserved e)
  | _ => false
  end.

(** The edges of the terminator lead to blocks of the array of [K]
    blocks, its expression leaves the dispatcher's variables alone, and
    a [Return] carries a value exactly when the function returns one. *)
Definition term_ok (K : nat) (rv : bool) (t : Cfg.terminator) : bool :=
  match t with
  | Cfg.Fallthrough next => bool_decide (next < K)%nat
  | Cfg.Branch c a b =>
      negb (uses_reserved c) && bool_decide (a < K)%nat && bool_decide (b < K)%nat
  | Cfg.Return None => negb rv
  | Cfg.Return (Some e) => rv && negb (uses_reserved e)
  | Cfg.SwitchDispatch v cases default =>
      negb (uses_reserved v) &&
      forallb (fun c : Z * nat => bool_decide (c.2 < K)%nat) cases &&
      bool_decide (default < K)%nat
  end.

Definition block_ok (K : nat) (rv : bool) (b : Cfg.block) : bool :=
  forallb straight (Cfg.stmts b) && term_ok K rv (Cfg.term b).

(** What the pass expects: a well-formed graph, and a numbering that
    gives distinct states to its blocks. *)
Definition cfg_ok (g : Cfg.cfg) : bool :=
  let K := length (Cfg.blocks g) in
  bool_decide (Cfg.entry g < K)%nat &&
  forallb (block_ok K (returns_value g)) (Cfg.blocks g) &&
  bool_decide (NoDup (num <$> seq 0 K)).

(** A function that is already a tree is not flattened again. *)
Definition body_ok (b : body) : bool :=
  match b with
  | Graph g => cfg_ok g
  | Tree _ => true
  end.

Definition program_ok (p : program) : bool :=
  forallb (fun d : string * func => body_ok (fbody d.2)) p.

(** **** The frame of the dispatcher

    The flattened function runs in the frame of the original one, with
    the variables of the dispatcher laid over it. *)

(** A frame that holds variables of the dispatcher only. *)
Definition only_reserved (fr : env) : Prop :=
  forall x, reserved x = false -> fr !! x = None.

(** The dispatcher's variables after a terminator: the next state, or
    the done flag and the value to return. *)
Definition after_term (fr : env) (t : Cfg.terminator) (next : nat + val) : env :=
  match next with
  | inl pc => <[STATE := VInt (num pc)]> fr
  | inr v =>
      <[DONE := VInt 1]>
        match t with
        | Cfg.Return (Some _) => <[RET := v]> fr
        | _ => fr
        end
  end.

(** What the loop of the flattened function gives, for what the graph
    gives: when the graph returns [v], the loop ends normally with the
    done flag set and the value kept for the final [return]. *)
Definition loop_matches {world : Type} (g : Cfg.cfg)
  (r : res (val * world)) (l : res (signal * env * world)) : Prop :=
  match r with
  | Ok (v, w) =>
      exists ρ, l = Ok (Normal, ρ, w) /\
                if returns_value g then ρ !! RET = Some v else v = VVoid
  | Stuck => l = Stuck
  | Timeout => l = Timeout
  end.

End Flattening.

(** *** The string-encryption pass *)

Section Encryption.
Import Ast.

(** The key generator of a function: each call gives the next key. *)
Context {gen : Type}.
Variable next_key : gen -> list Z * gen.

(** What the pass carries along: the generator, and the Encrypted
    Literal records made so far. *)
Definition pass_state : Type := (gen * list Cipher.encrypted_literal)%type.

(** What a traversal adds to the records: one record that round-trips
    for each literal in [lits], in this order. *)
Definition adds (lits : list (list Z)) (before after : pass_state) : Prop :=
  exists rs,
    after.2 = before.2 ++ rs /\
    Cipher.original <$> rs = lits /\
    Forall Cipher.round_trips rs.

Definition enc_list {A} (f : A -> pass_state -> A * pass_state)
  : list A -> pass_state -> list A * pass_state :=
  fix go (l : list A) (st : pass_state) :=
    match l with
    | [] => ([], st)
    | a :: l' =>
        let '(a', st1) := f a st in
        let '(l'', st2) := go l' st1 in
        (a' :: l'', st2)
    end.

Definition enc_option {A} (f : A -> pass_state -> A * pass_state)
  (o : option A) (st : pass_state) : option A * pass_state :=
  match o with
  | None => (None, st)
  | Some a => let '(a', st1) := f a st in (Some a', st1)
  end.

(** Modelled from the spec: every string literal is replaced by the use
    of an Encrypted Literal made with the next key; nothing else in the
    expression changes. *)
Fixpoint enc_expr (e : expr) (st : pass_state) : expr * pass_state :=
  match e with
  | LiteralInt z => (LiteralInt z, st)
  | LiteralString s =>
      let '(k, g) := next_key st.1 in
      let r := Cipher.make k s in
      (Decrypted (Cipher.cipher r) (Cipher.key r), (g, st.2 ++ [r]))
  | Decrypted cipher key => (Decrypted cipher key, st)
  | Ident x => (Ident x, st)
  | BinaryOp op a b =>
      let '(a', st1) := enc_expr a st in
      let '(b', st2) := enc_expr b st1 in
      (BinaryOp op a' b', st2)
  | UnaryOp op a =>
      let '(a', st1) := enc_expr a st in
      (UnaryOp op a', st1)
  | Call f args =>
      let '(args', st1) := enc_list enc_expr args st in
      (Call f args', st1)
  | Ternary c a b =>
      let '(c', st1) := enc_expr c st in
      let '(a', st2) := enc_expr a st1 in
      let '(b', st3) := enc_expr b st2 in
      (Ternary c' a' b', st3)
  | Assign x e =>
      let '(e', st1) := enc_expr e st in
      (Assign x e', st1)
  end.

Definition enc_case (f : stmt -> pass_state -> stmt * pass_state)
  (c : Z * list stmt) (st : pass_state) : (Z * list stmt) * pass_state :=
  let '(ss', st1) := enc_list f c.2 st in
  ((c.1, ss'), st1).

(** Modelled from the spec: the pass over a statement tree, in source
    order. *)
Fixpoint enc_stmt (s : stmt) (st : pass_state) : stmt * pass_state :=
  match s with
  | Block ss =>
      let '(ss', st1) := enc_list enc_stmt ss st in
      (Block ss', st1)
  | If c t e =>
      let '(c', st1) := enc_expr c st in
      let '(t', st2) := enc_stmt t st1 in
      let '(e', st3) := enc_stmt e st2 in
      (If c' t' e', st3)
  | While c b =>
      let '(c', st1) := enc_expr c st in
      let '(b', st2) := enc_stmt b st1 in
      (While c' b', st2)
  | Switch v cases default =>
      let '(v', st1) := enc_expr v st in
      let '(cases', st2) := enc_list (enc_case enc_stmt) cases st1 in
      let '(default', st3) := enc_option (enc_list enc_stmt) default st2 in
      (Switch v' cases' default', st3)
  | Break => (Break, st)
  | Continue => (Continue, st)
  | Return e =>
      let '(e', st1) := enc_option enc_expr e st in
      (Return e', st1)
  | ExprStatement e =>
      let '(e', st1) := enc_expr e st in
      (ExprStatement e', st1)
  | VarDecl x init =>
      let '(init', st1) := enc_option enc_expr init st in
      (VarDecl x init', st1)
  end.

(** Modelled from the spec: the pass over the body of a function, from
    the generator of that function: the new body, and the records of the
    literals it found. *)
Definition encrypt_strings (seed : gen) (ss : list stmt)
  : list stmt * list Cipher.encrypted_literal :=
  let '(ss', st) := enc_list enc_stmt ss (seed, []) in
  (ss', st.2).

(** **** The string literals of a tree, in source order *)

Fixpoint literals_expr (e : expr) : list (list Z) :=
  match e with
  | LiteralString s => [s]
  | LiteralInt _ | Decrypted _ _ | Ident _ => []
  | BinaryOp _ a b => literals_expr a ++ literals_expr b
  | UnaryOp _ a => literals_expr a
  | Call _ args => mjoin (literals_expr <$> args)
  | Ternary c a b => literals_expr c ++ literals_expr a ++ literals_expr b
  | Assign _ e => literals_expr e
  end.

Fixpoint literals_stmt (s : stmt) : list (list Z) :=
  match s with
  | Block ss => mjoin (literals_stmt <$> ss)
  | If c t e => literals_expr c ++ literals_stmt t ++ literals_stmt e
  | While c b => literals_expr c ++ literals_stmt b
  | Switch v cases default =>
      literals_expr v ++
      mjoin ((fun c : Z * list stmt => mjoin (literals_stmt <$> c.2)) <$> cases) ++
      from_option (fun ss => mjoin (literals_stmt <$> ss)) [] default
  | Break | Continue => []
  | Return e | VarDecl _ e => from_option literals_expr [] e
  | ExprStatement e => literals_expr e
  end.

End Encryption.

(** *** The pipeline: flatten, then encrypt *)

Section Pipeline.

Context {gen : Type}.
Variable next_key : gen -> list Z * gen.

(** Each function has a generator of its own, seeded by [seed]. *)
Variable seed : string -> gen.
Variable num : nat -> Z.

(** Modelled from the spec: the pass order is flatten, then encrypt. *)
Definition obfuscate_body (name : string) (b : body) : body :=
  let ss := match b with
            | Graph g => flatten num g
            | Tree ss => ss
            end in
  Tree (encrypt_strings next_key (seed name) ss).1.

(** Modelled from the spec: the functions are transformed one by one and
    emitted in their declaration order. *)
Definition obfuscate (p : program) : program :=
  (fun d : string * func =>
     (d.1, Build_func (params d.2) (obfuscate_body d.1 (fbody d.2)))) <$> p.

End Pipeline.

(** *** examples/control_flow.c as a translation unit of graphs

    The four functions of examples/control_flow.c, each as the graph that
    section 4.3 describes for it: the condition of an [if] or of a loop
    ends the block it is evaluated in, [break] and [continue] are edges
    to the join block and to the increment, and a case without [break]
    falls through into the block of the next case. *)

Module ControlFlowUnit.
Import Ast.

Definition assign (x : string) (e : expr) : stmt := ExprStatement (Assign x e).
Definition declare (x : string) (e : expr) : stmt := VarDecl x (Some e).
Definition lit (s : string) : expr := LiteralString (StringEncryption.bytes_of s).
(** A literal that ends with a newline (written [\n] in the source). *)
Definition line (s : string) : expr :=
  LiteralString (StringEncryption.bytes_of s ++ [10]).

Definition process_value : Cfg.cfg :=
  Cfg.Build_cfg 0 11
    [ (* 0 *) Cfg.Build_block [declare "result" (LiteralInt 0)]
                (Cfg.Branch (BinaryOp Gt (Ident "value") (LiteralInt 100)) 1 4);
      (* 1 *) Cfg.Build_block []
                (Cfg.Branch (BinaryOp Eq (BinaryOp Mod (Ident "value") (LiteralInt 2))
                               (LiteralInt 0)) 2 3);
      (* 2 *) Cfg.Build_block
                [assign "result" (BinaryOp Div (Ident "value") (LiteralInt 2))]
                (Cfg.Fallthrough 11);
      (* 3 *) Cfg.Build_block
                [assign "result"
                   (BinaryOp Add (BinaryOp Mul (Ident "value") (LiteralInt 3))
                      (LiteralInt 1))]
                (Cfg.Fallthrough 11);
      (* 4 *) Cfg.Build_block []
                (Cfg.Branch (BinaryOp Gt (Ident "value") (LiteralInt 50)) 5 8);
      (* 5 *) Cfg.Build_block []
                (Cfg.Branch (BinaryOp Eq (BinaryOp Mod (Ident "value") (LiteralInt 3))
                               (LiteralInt 0)) 6 7);
      (* 6 *) Cfg.Build_block
                [assign "result" (BinaryOp Mul (Ident "value") (LiteralInt 3))]
                (Cfg.Fallthrough 11);
      (* 7 *) Cfg.Build_block
                [assign "result" (BinaryOp Sub (Ident "value") (LiteralInt 10))]
                (Cfg.Fallthrough 11);
      (* 8 *) Cfg.Build_block []
                (Cfg.Branch (BinaryOp Eq (BinaryOp Mod (Ident "value") (LiteralInt 2))
                               (LiteralInt 0)) 9 10);
      (* 9 *) Cfg.Build_block
                [assign "result" (BinaryOp Mul (Ident "value") (Ident "value"))]
                (Cfg.Fallthrough 11);
      (* 10 *) Cfg.Build_block
                [assign "result" (BinaryOp Add (Ident "value") (LiteralInt 1))]
                (Cfg.Fallthrough 11);
      (* 11 *) Cfg.Build_block [] (Cfg.Return (Some (Ident "result"))) ].

Definition complex_loops : Cfg.cfg :=
  Cfg.Build_cfg 0 9
    [ (* 0 *) Cfg.Build_block
                [declare "sum" (LiteralInt 0); declare "i" (LiteralInt 0)]
                (Cfg.Fallthrough 1);
      (* 1: i < n *)
      Cfg.Build_block []
        (Cfg.Branch (BinaryOp Lt (Ident "i") (Ident "n")) 2 9);
      (* 2: continue goes to the increment of i *)
      Cfg.Build_block []
        (Cfg.Branch (BinaryOp Eq (BinaryOp Mod (Ident "i") (LiteralInt 3))
                       (LiteralInt 0)) 8 3);
      (* 3 *) Cfg.Build_block [declare "j" (LiteralInt 0)] (Cfg.Fallthrough 4);
      (* 4: j < i *)
      Cfg.Build_block []
        (Cfg.Branch (BinaryOp Lt (Ident "j") (Ident "i")) 5 7);
      (* 5: the inner break goes to the join of the inner loop *)
      Cfg.Build_block
        [assign "sum" (BinaryOp Add (Ident "sum")
                         (BinaryOp Mul (Ident "i") (Ident "j")))]
        (Cfg.Branch (BinaryOp Gt (Ident "sum") (LiteralInt 1000)) 7 6);
      (* 6: j++ *)
      Cfg.Build_block
        [assign "j" (BinaryOp Add (Ident "j") (LiteralInt 1))]
        (Cfg.Fallthrough 4);
      (* 7: the outer break goes to the join of the outer loop *)
      Cfg.Build_block []
        (Cfg.Branch (BinaryOp Gt (Ident "sum") (LiteralInt 2000)) 9 8);
      (* 8: i++ *)
      Cfg.Build_block
        [assign "i" (BinaryOp Add (Ident "i") (LiteralInt 1))]
        (Cfg.Fallthrough 1);
      (* 9 *) Cfg.Build_block [] (Cfg.Return (Some (Ident "sum"))) ].

Definition complex_switch : Cfg.cfg :=
  Cfg.Build_cfg 0 14
    [ (* 0 *) Cfg.Build_block [declare "result" (LiteralInt 0)]
                (Cfg.SwitchDispatch (Ident "code")
                   [(1, 1%nat); (2, 2%nat); (3, 3%nat); (4, 4%nat); (5, 5%nat)] 6);
      (* 1: case 1 *)
      Cfg.Build_block [assign "result" (LiteralInt 100)] (Cfg.Fallthrough 7);
      (* 2: case 2 falls through into case 3 *)
      Cfg.Build_block [assign "result" (LiteralInt 200)] (Cfg.Fallthrough 3);
      (* 3: case 3 *)
      Cfg.Build_block
        [assign "result" (BinaryOp Add (Ident "result") (LiteralInt 300))]
        (Cfg.Fallthrough 7);
      (* 4: case 4 falls through into case 5 *)
      Cfg.Build_block [] (Cfg.Fallthrough 5);
      (* 5: case 5 *)
      Cfg.Build_block [assign "result" (LiteralInt 500)] (Cfg.Fallthrough 7);
      (* 6: default *)
      Cfg.Build_block [assign "result" (UnaryOp Neg (LiteralInt 1))]
        (Cfg.Fallthrough 7);
      (* 7: result > 0 *)
      Cfg.Build_block []
        (Cfg.Branch (BinaryOp Gt (Ident "result") (LiteralInt 0)) 8 14);
      (* 8: the nested switch *)
      Cfg.Build_block []
        (Cfg.SwitchDispatch (Ident "result")
           [(100, 9%nat); (200, 10%nat); (500, 11%nat); (600, 12%nat)] 13);
      (* 9: case 100 *)
      Cfg.Build_block []
        (Cfg.Return (Some (BinaryOp Mul (Ident "result") (LiteralInt 2))));
      (* 10: case 200 falls through into case 500 *)
      Cfg.Build_block [] (Cfg.Fallthrough 11);
      (* 11: case 500 *)
      Cfg.Build_block []
        (Cfg.Return (Some (BinaryOp Div (Ident "result") (LiteralInt 2))));
      (* 12: case 600 *)
      Cfg.Build_block []
        (Cfg.Return (Some (BinaryOp Sub (Ident "result") (LiteralInt 100))));
      (* 13: default *)
      Cfg.Build_block [] (Cfg.Return (Some (Ident "result")));
      (* 14 *) Cfg.Build_block [] (Cfg.Return (Some (Ident "result"))) ].

Definition print (format : expr) (f : string) (arg : Z) : stmt :=
  ExprStatement (Call "printf" [format; Call f [LiteralInt arg]]).

Definition main : Cfg.cfg :=
  Cfg.Build_cfg 0 0
    [ Cfg.Build_block
        [ print (line "Processing 120: %d") "process_value" 120;
          print (line "Processing 75: %d") "process_value" 75;
          print (line "Processing 30: %d") "process_value" 30;
          print (line "Complex loops with n=10: %d") "complex_loops" 10;
          print (line "Switch with code 1: %d") "complex_switch" 1;
          print (line "Switch with code 2: %d") "complex_switch" 2;
          print (line "Switch with code 4: %d") "complex_switch" 4 ]
        (Cfg.Return (Some (LiteralInt 0))) ].

Definition unit : program :=
  [ ("process_value", Build_func ["value"] (Graph process_value));
    ("complex_loops", Build_func ["n"] (Graph complex_loops));
    ("complex_switch", Build_func ["code"] (Graph complex_switch));
    ("main", Build_func [] (Graph main)) ].

(** What the program has printed: the arguments of each call of
    [printf], oldest first. *)
Definition output : Type := list (list val).

(** A stand-in for the built-ins: [printf] adds its arguments to the
    output; there is no other built-in. *)
Definition builtins (f : string) (args : list val) (out : output)
  : res (val * output) :=
  if decide (f = "printf") then Ok (VInt 0, out ++ [args]) else Stuck.

(** A key generator for the examples: a linear congruential generator
    that gives four key bytes at a time. *)
Definition next_key (s : Z) : list Z * Z :=
  ([s mod 256; (s / 256) mod 256; (s / 65536) mod 256; (s / 16777216) mod 256],
   (s * 1103515245 + 12345) mod 2147483648).

Definition seed (name : string) : Z := 305419896 + Z.of_nat (String.length name).

(** A numbering of the blocks that is not their order of creation. *)
Definition num (i : nat) : Z := 7 * Z.of_nat i + 3.

Definition obfuscated : program := obfuscate next_key seed num unit.

(** What [main] prints. *)
Definition expected_output : output :=
  [ [VStr (StringEncryption.bytes_of "Processing 120: %d" ++ [10]); VInt 60];
    [VStr (StringEncryption.bytes_of "Processing 75: %d" ++ [10]); VInt 225];
    [VStr (StringEncryption.bytes_of "Processing 30: %d" ++ [10]); VInt 900];
    [VStr (StringEncryption.bytes_of "Complex loops with n=10: %d" ++ [10]); VInt 447];
    [VStr (StringEncryption.bytes_of "Switch with code 1: %d" ++ [10]); VInt 200];
    [VStr (StringEncryption.bytes_of "Switch with code 2: %d" ++ [10]); VInt 250];
    [VStr (StringEncryption.bytes_of "Switch with code 4: %d" ++ [10]); VInt 250] ].

End ControlFlowUnit.

(** * Properties of the corpus *)

(** ** examples/control_flow.c *)

(** C1, as amended: [process_value] returns 60 for 120, 225 for 75 (75 is
    a multiple of 3, so the result is [value * 3]) and 900 for 30. *)
Theorem process_value_samples :
  ControlFlow.process_value 120 = 60 /\
  ControlFlow.process_value 75 = 225 /\
  ControlFlow.process_value 30 = 900.
Proof. repeat split; reflexivity. Qed.

(** C1 as stated does not hold: the three values 60, 65 and 900 are not
    what [process_value] returns for 120, 75 and 30. *)
Lemma process_value_75_is_not_65 :
  ~ (ControlFlow.process_value 120 = 60 /\
     ControlFlow.process_value 75 = 65 /\
     ControlFlow.process_value 30 = 900).
Proof. intros (_ & H & _). vm_compute in H. discriminate H. Qed.

(** C2: [complex_switch 2] is 250: the first switch enters at [case 2],
    whose arm sets [result] to 200 and falls through into the arm of
    [case 3], which gives 500 and breaks; the nested switch on 500
    returns [result / 2]. *)
Theorem complex_switch_2_falls_through :
  Switch.from_case 2 ControlFlow.code_arms = Some (drop 1 ControlFlow.code_arms) /\
  Switch.run_arms (take 1 (drop 1 ControlFlow.code_arms)) 0 = Switch.Fall 200 /\
  Switch.run_arms (take 1 (drop 2 ControlFlow.code_arms)) 200 = Switch.Brk 500 /\
  Switch.switch 2 ControlFlow.code_arms 0 = Switch.Brk 500 /\
  Switch.switch 500 ControlFlow.result_arms 500 = Switch.Ret (Z.quot 500 2) /\
  ControlFlow.complex_switch 2 = 250.
Proof. repeat split; reflexivity. Qed.

(** C4, as amended: in the execution of [complex_loops 10] the [continue]
    is taken four times (for i = 0, 3, 6 and 9) and no [break] is taken:
    [sum] ends at 447 and never exceeds 1000. *)
Theorem complex_loops_10_jumps :
  ControlFlow.jumps (ControlFlow.complex_loops_run 10) =
    [ControlFlow.ContinueOuter; ControlFlow.ContinueOuter;
     ControlFlow.ContinueOuter; ControlFlow.ContinueOuter] /\
  ControlFlow.complex_loops 10 = 447.
Proof. split; vm_compute; reflexivity. Qed.

(** C4 as stated does not hold: the execution of [complex_loops 10] does
    not take all three jumps. *)
Lemma complex_loops_10_takes_no_break :
  ~ (ControlFlow.ContinueOuter ∈ ControlFlow.jumps (ControlFlow.complex_loops_run 10) /\
     ControlFlow.BreakInner ∈ ControlFlow.jumps (ControlFlow.complex_loops_run 10) /\
     ControlFlow.BreakOuter ∈ ControlFlow.jumps (ControlFlow.complex_loops_run 10)).
Proof.
  intros (_ & H & _).
  replace (ControlFlow.jumps (ControlFlow.complex_loops_run 10))
    with (replicate 4 ControlFlow.ContinueOuter) in H
    by (vm_compute; reflexivity).
  apply elem_of_replicate in H. destruct H as [H _]. discriminate H.
Qed.

(** ** examples/fibonacci.c *)

(** C3: the recursive and the iterative function both return 55 for 10. *)
Theorem fibonacci_10 :
  Fibonacci.fibonacci 10 = 55 /\ Fibonacci.fibonacci_iterative 10 = 55.
Proof. split; vm_compute; reflexivity. Qed.

(** The recursive function computes the Fibonacci sequence on the
    naturals. *)
Lemma fibonacci_fib_seq (k : nat) :
  Fibonacci.fibonacci (Z.of_nat k) = Fibonacci.fib_seq k.
Proof.
  induction k as [k IH] using lt_wf_ind.
  rewrite Fibonacci.fibonacci_equation_1.
  destruct (Z_le_gt_dec (Z.of_nat k) 1) as [Hle | Hgt]; simpl.
  - destruct k as [| [| k]]; [reflexivity | reflexivity | lia].
  - destruct k as [| [| k]]; [lia | lia |].
    replace (Z.of_nat (S (S k)) - 1) with (Z.of_nat (S k)) by lia.
    replace (Z.of_nat (S (S k)) - 2) with (Z.of_nat k) by lia.
    rewrite (IH (S k)), (IH k) by lia.
    reflexivity.
Qed.

(** The loop of the iterative function, entered at [i = k + 2] with two
    consecutive Fibonacci numbers, ends with the one of index [n]. *)
Lemma fib_loop_fib_seq (d k : nat) (n : Z) :
  Z.of_nat k + Z.of_nat d = n - 1 ->
  Fibonacci.fib_loop n (Fibonacci.fib_seq k) (Fibonacci.fib_seq (S k))
    (Z.of_nat k + 2) = Fibonacci.fib_seq (Z.to_nat n).
Proof.
  revert k. induction d as [| d IH]; intros k Hn.
  - rewrite Fibonacci.fib_loop_equation_1.
    destruct (Z_le_gt_dec (Z.of_nat k + 2) n); [lia |].
    cbv beta iota delta [Fibonacci.fib_loop_unfold_clause_1].
    f_equal. lia.
  - rewrite Fibonacci.fib_loop_equation_1.
    destruct (Z_le_gt_dec (Z.of_nat k + 2) n); [| lia].
    cbv zeta beta iota delta [Fibonacci.fib_loop_unfold_clause_1].
    replace (Z.of_nat k + 2 + 1) with (Z.of_nat (S k) + 2) by lia.
    replace (Fibonacci.fib_seq k + Fibonacci.fib_seq (S k))
      with (Fibonacci.fib_seq (S (S k)))
      by (change (Fibonacci.fib_seq (S (S k)))
            with (Fibonacci.fib_seq (S k) + Fibonacci.fib_seq k); lia).
    apply IH. lia.
Qed.

(** C8: for every integer [n] the two functions return the same value:
    [n] itself when [n <= 1], the Fibonacci number of index [n]
    otherwise. *)
Theorem fibonacci_iterative_agrees (n : Z) :
  Fibonacci.fibonacci n = Fibonacci.fibonacci_iterative n /\
  Fibonacci.fibonacci n =
    (if n <=? 1 then n else Fibonacci.fib_seq (Z.to_nat n)).
Proof.
  assert (Hrec : Fibonacci.fibonacci n =
                 if n <=? 1 then n else Fibonacci.fib_seq (Z.to_nat n)).
  { destruct (Z.leb_spec n 1) as [Hle | Hgt].
    - rewrite Fibonacci.fibonacci_equation_1.
      destruct (Z_le_gt_dec n 1); [reflexivity | lia].
    - rewrite <- (Z2Nat.id n) at 1 by lia. apply fibonacci_fib_seq. }
  split; [| exact Hrec].
  rewrite Hrec. unfold Fibonacci.fibonacci_iterative.
  destruct (Z.leb_spec n 1) as [Hle | Hgt]; [reflexivity |].
  symmetry.
  apply (fib_loop_fib_seq (Z.to_nat (n - 1)) 0 n). lia.
Qed.

(** ** examples/string_encryption.c *)

Lemma strcmp_zero_iff (s1 s2 : list Z) :
  StringEncryption.strcmp s1 s2 = 0 <->
  StringEncryption.c_str s1 = StringEncryption.c_str s2.
Proof.
  revert s2. induction s1 as [| c1 r1 IH]; intros [| c2 r2]; simpl.
  - tauto.
  - destruct (Z.eqb_spec c2 0); split; intros H; try lia; congruence.
  - destruct (Z.eqb_spec c1 0); split; intros H; try lia; congruence.
  - destruct (Z.eqb_spec c1 c2) as [-> | Hne].
    + destruct (Z.eqb_spec c2 0); [tauto |].
      rewrite IH. split; intros H; congruence.
    + destruct (Z.eqb_spec c1 0), (Z.eqb_spec c2 0);
        split; intros H; try lia; congruence.
Qed.

(** C9: [authenticate] returns 1 exactly when the two C strings are
    "admin" and "supersecret123" byte for byte, and 0 otherwise. *)
Theorem authenticate_iff (username password : list Z) :
  (StringEncryption.authenticate username password = 1 <->
   StringEncryption.c_str username = StringEncryption.bytes_of "admin" /\
   StringEncryption.c_str password = StringEncryption.bytes_of "supersecret123") /\
  (StringEncryption.authenticate username password <> 1 ->
   StringEncryption.authenticate username password = 0).
Proof.
  unfold StringEncryption.authenticate.
  change (StringEncryption.bytes_of "admin")
    with (StringEncryption.c_str (StringEncryption.literal "admin")).
  change (StringEncryption.bytes_of "supersecret123")
    with (StringEncryption.c_str (StringEncryption.literal "supersecret123")).
  rewrite <- !strcmp_zero_iff.
  destruct (Z.eqb_spec (StringEncryption.strcmp username
                          (StringEncryption.literal "admin")) 0);
    destruct (Z.eqb_spec (StringEncryption.strcmp password
                            (StringEncryption.literal "supersecret123")) 0);
    simpl; split; try tauto; split; try tauto; intros; lia.
Qed.

(** ** rustcc/tests/complex.c *)

(** C10: [main] returns 110: [z] reaches 53, [factorial 4] is 24,
    [fibonacci 7] is 13, the sum of the array is 75, so [result] is
    53 + (24 * 13) / (75 % 10 + 1) = 105, a multiple of 3, and the switch
    adds 5. *)
Theorem main_returns_110 :
  TestsComplex.main_z = 53 /\
  TestsComplex.factorial 4 = 24 /\
  TestsComplex.fibonacci 7 = 13 /\
  TestsComplex.calculate_sum [5; 10; 15; 20; 25] 5 = Some 75 /\
  53 + Z.quot (24 * 13) (Z.rem 75 10 + 1) = 105 /\
  Switch.switch (Z.rem 105 3) TestsComplex.result_arms 105 = Switch.Brk (105 + 5) /\
  TestsComplex.main = Some 110.
Proof. repeat split; vm_compute; reflexivity. Qed.

(** ** The text of the corpus *)

(** C5, as amended: the corpus does use compound assignment: [+=] is on
    eight lines of three files and [-=] on one line, so a parser of the
    corpus has to support both. *)
Theorem compound_assignments_in_corpus :
  Corpus.places "+=" =
    [ ("examples/control_flow.c", 54%nat); ("examples/control_flow.c", 85%nat);
      ("rustcc/tests/complex.c", 21%nat); ("rustcc/tests/complex.c", 44%nat);
      ("rustcc/tests/complex.c", 50%nat); ("rustcc/tests/complex.c", 65%nat);
      ("rustcc/tests/control_flow.c", 7%nat); ("rustcc/tests/control_flow.c", 13%nat) ] /\
  Corpus.places "-=" = [ ("rustcc/tests/complex.c", 71%nat) ].
Proof. split; vm_compute; reflexivity. Qed.

(** C5 as stated does not hold: it is not the case that no line of the
    corpus contains [+=] or [-=]. *)
Lemma corpus_has_compound_assignment :
  ~ (Corpus.places "+=" = [] /\ Corpus.places "-=" = []).
Proof. intros [H _]. vm_compute in H. discriminate H. Qed.

(** * Properties of the pipeline *)

(** ** The string cipher *)

Lemma combine_from_involutive (key : list Z) (i : nat) (bytes : list Z) :
  Cipher.combine_from key i (Cipher.combine_from key i bytes) = bytes.
Proof.
  revert i. induction bytes as [| b rest IH]; intros i; simpl.
  - reflexivity.
  - rewrite IH. f_equal.
    rewrite Z.lxor_assoc, Z.lxor_nilpotent, Z.lxor_0_r. reflexivity.
Qed.

Lemma decrypt_encrypt (key lit : list Z) :
  Cipher.decrypt key (Cipher.encrypt key lit) = lit.
Proof. apply combine_from_involutive. Qed.

Lemma make_round_trips (key lit : list Z) :
  Cipher.round_trips (Cipher.make key lit).
Proof. apply decrypt_encrypt. Qed.

(** ** The records of the string-encryption pass *)

Section EncryptionRecords.
Import Ast.

Context {gen : Type}.
Variable next_key : gen -> list Z * gen.

Lemma adds_nil (st : pass_state (gen := gen)) : adds [] st st.
Proof. exists []. rewrite app_nil_r. repeat split. constructor. Qed.

Lemma adds_app (l1 l2 : list (list Z)) (st1 st2 st3 : pass_state (gen := gen)) :
  adds l1 st1 st2 -> adds l2 st2 st3 -> adds (l1 ++ l2) st1 st3.
Proof.
  intros (r1 & E1 & O1 & F1) (r2 & E2 & O2 & F2).
  exists (r1 ++ r2). rewrite E2, E1, <- app_assoc, fmap_app, O1, O2.
  repeat split. apply Forall_app; split; assumption.
Qed.

Lemma enc_list_adds {A} (f : A -> pass_state (gen := gen) -> A * pass_state (gen := gen))
  (lits : A -> list (list Z)) (l : list A) :
  Forall (fun a => forall st, adds (lits a) st (f a st).2) l ->
  forall st, adds (mjoin (lits <$> l)) st (enc_list f l st).2.
Proof.
  induction 1 as [| a l Ha _ IH]; intros st; simpl.
  - apply adds_nil.
  - specialize (Ha st). destruct (f a st) as [a' st1].
    specialize (IH st1). destruct (enc_list f l st1) as [l' st2].
    simpl in *. eapply adds_app; eassumption.
Qed.

Lemma list_all_Forall {A} (P : A -> Prop) (l : list A) :
  list_all A P l -> Forall P l.
Proof. induction 1; constructor; assumption. Qed.

Lemma list_all_impl_Forall {A} (P : A -> Type) (Q : A -> Prop) (l : list A) :
  (forall a, P a -> Q a) -> list_all A P l -> Forall Q l.
Proof. intros HPQ. induction 1; constructor; auto. Qed.

Lemma enc_expr_adds (e : expr) :
  forall st, adds (literals_expr e) st (enc_expr next_key e st).2.
Proof.
  induction e as [z | s | c k | x | op a IHa b IHb | op a IHa | f args IH
                 | c IHc a IHa b IHb | x e IHe]; intros st; simpl;
    try apply adds_nil.
  - destruct (next_key st.1) as [k g]. simpl.
    exists [Cipher.make k s]. repeat split.
    constructor; [apply make_round_trips | constructor].
  - specialize (IHa st). destruct (enc_expr next_key a st) as [a' st1].
    specialize (IHb st1). destruct (enc_expr next_key b st1) as [b' st2].
    simpl in *. eapply adds_app; eassumption.
  - specialize (IHa st). destruct (enc_expr next_key a st) as [a' st1].
    exact IHa.
  - pose proof (enc_list_adds (enc_expr next_key) literals_expr args
                  (list_all_Forall _ _ IH) st) as H.
    destruct (enc_list (enc_expr next_key) args st) as [args' st1].
    exact H.
  - specialize (IHc st). destruct (enc_expr next_key c st) as [c' st1].
    specialize (IHa st1). destruct (enc_expr next_key a st1) as [a' st2].
    specialize (IHb st2). destruct (enc_expr next_key b st2) as [b' st3].
    simpl in *. eapply adds_app; [eassumption |].
    eapply adds_app; eassumption.
  - specialize (IHe st). destruct (enc_expr next_key e st) as [e' st1].
    exact IHe.
Qed.

Lemma enc_option_expr_adds (o : option expr) (st : pass_state (gen := gen)) :
  adds (from_option literals_expr [] o) st (enc_option (enc_expr next_key) o st).2.
Proof.
  destruct o as [e |]; simpl; [| apply adds_nil].
  pose proof (enc_expr_adds e st) as H.
  destruct (enc_expr next_key e st) as [e' st1]. exact H.
Qed.

Lemma enc_stmt_adds (s : stmt) :
  forall st, adds (literals_stmt s) st (enc_stmt next_key s st).2.
Proof.
  induction s as [ss IH | c t IHt e IHe | c b IHb | v cases IHc default IHd
                 | | | e | e | x init]; intros st; simpl;
    try apply adds_nil.
  - pose proof (enc_list_adds (enc_stmt next_key) literals_stmt ss
                  (list_all_Forall _ _ IH) st) as H.
    destruct (enc_list (enc_stmt next_key) ss st) as [ss' st1]. exact H.
  - pose proof (enc_expr_adds c st) as Hc.
    destruct (enc_expr next_key c st) as [c' st1].
    specialize (IHt st1). destruct (enc_stmt next_key t st1) as [t' st2].
    specialize (IHe st2). destruct (enc_stmt next_key e st2) as [e' st3].
    simpl in *. eapply adds_app; [eassumption |].
    eapply adds_app; eassumption.
  - pose proof (enc_expr_adds c st) as Hc.
    destruct (enc_expr next_key c st) as [c' st1].
    specialize (IHb st1). destruct (enc_stmt next_key b st1) as [b' st2].
    simpl in *. eapply adds_app; eassumption.
  - pose proof (enc_expr_adds v st) as Hv.
    destruct (enc_expr next_key v st) as [v' st1].
    assert (Hcases : forall st,
               adds (mjoin ((fun c : Z * list stmt => mjoin (literals_stmt <$> c.2)) <$> cases))
                 st (enc_list (enc_case (enc_stmt next_key)) cases st).2).
    { apply enc_list_adds.
      eapply list_all_impl_Forall; [| exact IHc].
      intros c Hc st'. destruct Hc as [l _ ss Hss]. unfold enc_case. simpl.
      pose proof (enc_list_adds (enc_stmt next_key) literals_stmt ss
                    (list_all_Forall _ _ Hss) st') as H.
      destruct (enc_list (enc_stmt next_key) ss st') as [ss' st1']. exact H. }
    specialize (Hcases st1).
    destruct (enc_list (enc_case (enc_stmt next_key)) cases st1) as [cases' st2].
    assert (Hd : adds (from_option (fun ss => mjoin (literals_stmt <$> ss)) [] default)
                   st2 (enc_option (enc_list (enc_stmt next_key)) default st2).2).
    { destruct IHd as [ss Hss |]; simpl; [| apply adds_nil].
      pose proof (enc_list_adds (enc_stmt next_key) literals_stmt ss
                    (list_all_Forall _ _ Hss) st2) as H.
      destruct (enc_list (enc_stmt next_key) ss st2) as [ss' st3]. exact H. }
    destruct (enc_option (enc_list (enc_stmt next_key)) default st2) as [d' st3].
    simpl in *. eapply adds_app; [eassumption |].
    eapply adds_app; eassumption.
  - pose proof (enc_option_expr_adds e st) as H.
    destruct (enc_option (enc_expr next_key) e st) as [e' st1]. exact H.
  - pose proof (enc_expr_adds e st) as H.
    destruct (enc_expr next_key e st) as [e' st1]. exact H.
  - pose proof (enc_option_expr_adds init st) as H.
    destruct (enc_option (enc_expr next_key) init st) as [i' st1]. exact H.
Qed.

(** The records of a function body: one for each of its literals, in
    source order, and each of them round-trips. *)
Lemma encrypt_strings_records (seed : gen) (ss : list stmt) :
  Cipher.original <$> (encrypt_strings next_key seed ss).2 =
    mjoin (literals_stmt <$> ss) /\
  Forall Cipher.round_trips (encrypt_strings next_key seed ss).2.
Proof.
  unfold encrypt_strings.
  assert (H : adds (mjoin (literals_stmt <$> ss)) (seed, [])
                (enc_list (enc_stmt next_key) ss (seed, [])).2).
  { apply enc_list_adds. apply Forall_forall. intros s _. apply enc_stmt_adds. }
  destruct (enc_list (enc_stmt next_key) ss (seed, [])) as [ss' st].
  destruct H as (rs & E & O & F). simpl in *. subst. split; assumption.
Qed.

End EncryptionRecords.

(** ** The string-encryption pass keeps what a tree computes *)

Section EncryptionCorrect.
Import Ast.

Context {world gen : Type}.
Variable next_key : gen -> list Z * gen.
Variable call : string -> list val -> world -> res (val * world).
Variable fuel : nat.

Lemma eval_call_unfold (f : string) (args : list expr) (ρ : env) (w : world) :
  eval call (Call f args) ρ w =
    ('(vs, ρ1, w1) ← eval_args call args ρ w;
     '(v, w2) ← call f vs w1;
     Ok (v, ρ1, w2)).
Proof. reflexivity. Qed.

Lemma eval_args_enc_list (args : list expr) :
  Forall (fun e => forall st ρ w,
            eval call (enc_expr next_key e st).1 ρ w = eval call e ρ w) args ->
  forall st ρ w,
    eval_args call (enc_list (enc_expr next_key) args st).1 ρ w =
    eval_args call args ρ w.
Proof.
  induction 1 as [| a l Ha _ IH]; intros st ρ w; simpl; [reflexivity |].
  specialize (Ha st). destruct (enc_expr next_key a st) as [a' st1].
  specialize (IH st1). destruct (enc_list (enc_expr next_key) l st1) as [l' st2].
  simpl in *. rewrite Ha.
  destruct (eval call a ρ w) as [[[v ρ1] w1] | |]; simpl; try reflexivity.
  rewrite IH. reflexivity.
Qed.

Lemma eval_enc_expr (e : expr) :
  forall st ρ w, eval call (enc_expr next_key e st).1 ρ w = eval call e ρ w.
Proof.
  induction e as [z | s | c k | x | op a IHa b IHb | op a IHa | f args IH
                 | c IHc a IHa b IHb | x e IHe]; intros st ρ w;
    try reflexivity.
  - simpl. destruct (next_key st.1) as [k g]. simpl.
    rewrite decrypt_encrypt. reflexivity.
  - simpl. specialize (IHa st). destruct (enc_expr next_key a st) as [a' st1].
    specialize (IHb st1). destruct (enc_expr next_key b st1) as [b' st2].
    simpl in *. rewrite IHa.
    destruct (eval call a ρ w) as [[[va ρ1] w1] | |]; simpl; try reflexivity.
    rewrite IHb. reflexivity.
  - simpl. specialize (IHa st). destruct (enc_expr next_key a st) as [a' st1].
    simpl in *. rewrite IHa. reflexivity.
  - pose proof (eval_args_enc_list args (list_all_Forall _ _ IH) st) as H.
    simpl enc_expr. destruct (enc_list (enc_expr next_key) args st) as [args' st1].
    simpl in H. simpl fst. rewrite !eval_call_unfold, H. reflexivity.
  - simpl. specialize (IHc st). destruct (enc_expr next_key c st) as [c' st1].
    specialize (IHa st1). destruct (enc_expr next_key a st1) as [a' st2].
    specialize (IHb st2). destruct (enc_expr next_key b st2) as [b' st3].
    simpl in *. rewrite IHc.
    destruct (eval call c ρ w) as [[[vc ρ1] w1] | |]; simpl; try reflexivity.
    destruct (as_int vc) as [x | |]; simpl; try reflexivity.
    destruct (x =? 0); [apply IHb | apply IHa].
  - simpl. specialize (IHe st). destruct (enc_expr next_key e st) as [e' st1].
    simpl in *. rewrite IHe. reflexivity.
Qed.

Lemma exec_seq_enc_list (ss : list stmt) :
  Forall (fun s => forall st ρ w,
            exec call fuel (enc_stmt next_key s st).1 ρ w = exec call fuel s ρ w) ss ->
  forall st ρ w,
    exec_seq (exec call fuel) (enc_list (enc_stmt next_key) ss st).1 ρ w =
    exec_seq (exec call fuel) ss ρ w.
Proof.
  induction 1 as [| s l Hs _ IH]; intros st ρ w; simpl; [reflexivity |].
  specialize (Hs st). destruct (enc_stmt next_key s st) as [s' st1].
  specialize (IH st1). destruct (enc_list (enc_stmt next_key) l st1) as [l' st2].
  simpl in *. rewrite Hs.
  destruct (exec call fuel s ρ w) as [[[sg ρ1] w1] | |]; simpl; try reflexivity.
  destruct sg; try reflexivity. apply IH.
Qed.

Lemma exec_cases_enc_list (z : Z) (cases : list (Z * list stmt)) :
  Forall (fun c : Z * list stmt => forall st ρ w,
            exec_seq (exec call fuel) (enc_list (enc_stmt next_key) c.2 st).1 ρ w =
            exec_seq (exec call fuel) c.2 ρ w) cases ->
  forall entered st ρ w,
    exec_cases (exec_seq (exec call fuel)) z entered
      (enc_list (enc_case (enc_stmt next_key)) cases st).1 ρ w =
    exec_cases (exec_seq (exec call fuel)) z entered cases ρ w.
Proof.
  induction 1 as [| [l ss] cs Hc _ IH]; intros entered st ρ w; simpl;
    [reflexivity |].
  unfold enc_case at 1. simpl.
  specialize (Hc st). simpl in Hc.
  destruct (enc_list (enc_stmt next_key) ss st) as [ss' st1].
  specialize (IH). 
  destruct (enc_list (enc_case (enc_stmt next_key)) cs st1) as [cs' st2] eqn:E.
  simpl in *.
  assert (IH' : forall entered ρ w,
             exec_cases (exec_seq (exec call fuel)) z entered cs' ρ w =
             exec_cases (exec_seq (exec call fuel)) z entered cs ρ w).
  { intros. specialize (IH entered0 st1 ρ0 w0). rewrite E in IH. exact IH. }
  destruct (entered || (z =? l)).
  - rewrite Hc.
    destruct (exec_seq (exec call fuel) ss ρ w) as [[[sg ρ1] w1] | |]; simpl;
      try reflexivity.
    destruct sg; try reflexivity. apply IH'.
  - apply IH'.
Qed.

Lemma while_loop_ext
  (body1 body2 : env -> world -> res (signal * env * world)) (c1 c2 : expr) :
  (forall ρ w, body1 ρ w = body2 ρ w) ->
  (forall ρ w, eval call c1 ρ w = eval call c2 ρ w) ->
  forall k ρ w,
    while_loop call body1 c1 k ρ w = while_loop call body2 c2 k ρ w.
Proof.
  intros Hb Hc. induction k as [| k IH]; intros ρ w; simpl; rewrite Hc.
  - reflexivity.
  - destruct (eval call c2 ρ w) as [[[vc ρ1] w1] | |]; simpl; try reflexivity.
    destruct (as_int vc) as [x | |]; simpl; try reflexivity.
    destruct (x =? 0); [reflexivity |].
    rewrite Hb.
    destruct (body2 ρ1 w1) as [[[sg ρ2] w2] | |]; simpl; try reflexivity.
    destruct sg; try reflexivity; apply IH.
Qed.

Lemma exec_enc_stmt (s : stmt) :
  forall st ρ w,
    exec call fuel (enc_stmt next_key s st).1 ρ w = exec call fuel s ρ w.
Proof.
  induction s as [ss IH | c t IHt e IHe | c b IHb | v cases IHc default IHd
                 | | | e | e | x init]; intros st ρ w; try reflexivity.
  - pose proof (exec_seq_enc_list ss (list_all_Forall _ _ IH) st) as H.
    simpl. destruct (enc_list (enc_stmt next_key) ss st) as [ss' st1].
    apply H.
  - simpl. pose proof (eval_enc_expr c st) as Hc.
    destruct (enc_expr next_key c st) as [c' st1].
    specialize (IHt st1). destruct (enc_stmt next_key t st1) as [t' st2].
    specialize (IHe st2). destruct (enc_stmt next_key e st2) as [e' st3].
    simpl in *. rewrite Hc.
    destruct (eval call c ρ w) as [[[vc ρ1] w1] | |]; simpl; try reflexivity.
    destruct (as_int vc) as [x | |]; simpl; try reflexivity.
    destruct (x =? 0); [apply IHe | apply IHt].
  - simpl. pose proof (eval_enc_expr c st) as Hc.
    destruct (enc_expr next_key c st) as [c' st1].
    specialize (IHb st1). destruct (enc_stmt next_key b st1) as [b' st2].
    simpl in *. apply while_loop_ext; assumption.
  - simpl. pose proof (eval_enc_expr v st) as Hv.
    destruct (enc_expr next_key v st) as [v' st1].
    assert (Hcases : forall z entered st ρ w,
               exec_cases (exec_seq (exec call fuel)) z entered
                 (enc_list (enc_case (enc_stmt next_key)) cases st).1 ρ w =
               exec_cases (exec_seq (exec call fuel)) z entered cases ρ w).
    { intros z. apply exec_cases_enc_list.
      eapply list_all_impl_Forall; [| exact IHc].
      intros c0 Hc0. destruct Hc0 as [l _ ss Hss]. simpl.
      apply exec_seq_enc_list. apply list_all_Forall. exact Hss. }
    pose proof (fun z entered => Hcases z entered st1) as Hcases1.
    destruct (enc_list (enc_case (enc_stmt next_key)) cases st1) as [cases' st2].
    assert (Hd : forall st,
               match (enc_option (enc_list (enc_stmt next_key)) default st).1, default with
               | Some ss', Some ss =>
                   forall ρ w, exec_seq (exec call fuel) ss' ρ w =
                               exec_seq (exec call fuel) ss ρ w
               | None, None => True
               | _, _ => False
               end).
    { intros st'. destruct IHd as [ss Hss |]; simpl; [| exact I].
      pose proof (exec_seq_enc_list ss (list_all_Forall _ _ Hss) st') as H.
      destruct (enc_list (enc_stmt next_key) ss st') as [ss' st3]. exact H. }
    specialize (Hd st2).
    destruct (enc_option (enc_list (enc_stmt next_key)) default st2) as [d' st3].
    simpl in *. rewrite Hv.
    destruct (eval call v ρ w) as [[[vv ρ1] w1] | |]; simpl; try reflexivity.
    destruct (as_int vv) as [z | |]; simpl; try reflexivity.
    rewrite Hcases1.
    destruct (exec_cases (exec_seq (exec call fuel)) z false cases ρ1 w1)
      as [[[[en sg] ρ2] w2] | |]; simpl; try reflexivity.
    destruct d' as [ss' |], default as [ss |]; try contradiction.
    + destruct sg; try reflexivity. rewrite Hd. reflexivity.
    + destruct sg; reflexivity.
  - destruct e as [e |]; [| reflexivity].
    simpl. pose proof (eval_enc_expr e st) as He.
    destruct (enc_expr next_key e st) as [e' st1]. simpl in *.
    rewrite He. reflexivity.
  - simpl. pose proof (eval_enc_expr e st) as He.
    destruct (enc_expr next_key e st) as [e' st1]. simpl in *.
    rewrite He. reflexivity.
  - destruct init as [e |]; [| reflexivity].
    simpl. pose proof (eval_enc_expr e st) as He.
    destruct (enc_expr next_key e st) as [e' st1]. simpl in *.
    rewrite He. reflexivity.
Qed.

(** A function body runs the same before and after the pass. *)
Lemma run_tree_encrypt_strings (seed : gen) (ss : list stmt) (ρ : env) (w : world) :
  run_tree call fuel (encrypt_strings next_key seed ss).1 ρ w =
  run_tree call fuel ss ρ w.
Proof.
  unfold run_tree, encrypt_strings.
  assert (H : exec_seq (exec call fuel)
                (enc_list (enc_stmt next_key) ss (seed, [])).1 ρ w =
              exec_seq (exec call fuel) ss ρ w).
  { apply exec_seq_enc_list. apply Forall_forall. intros s _. apply exec_enc_stmt. }
  destruct (enc_list (enc_stmt next_key) ss (seed, [])) as [ss' st].
  simpl in *. rewrite H. reflexivity.
Qed.

End EncryptionCorrect.

(** ** The flattening pass keeps what a function computes *)

Section FlatteningCorrect.
Import Ast.

Context {world : Type}.
Variable call : string -> list val -> world -> res (val * world).
Variable fuel : nat.
Variable num : nat -> Z.

Lemma eval_args_framed (fr : env) (args : list expr) :
  Forall (fun e => uses_reserved e = false ->
                   forall ρ w, eval call e (fr ∪ ρ) w = framed fr (eval call e ρ w)) args ->
  existsb uses_reserved args = false ->
  forall ρ w, eval_args call args (fr ∪ ρ) w = framed fr (eval_args call args ρ w).
Proof.
  induction 1 as [| a l Ha _ IH]; intros Hu ρ w; simpl; [reflexivity |].
  simpl in Hu. apply orb_false_iff in Hu as [Hua Hul].
  rewrite (Ha Hua).
  destruct (eval call a ρ w) as [[[v ρ1] w1] | |]; simpl; try reflexivity.
  rewrite (IH Hul).
  destruct (eval_args call l ρ1 w1) as [[[vs ρ2] w2] | |]; reflexivity.
Qed.

Lemma eval_framed (fr : env) (e : expr) :
  only_reserved fr ->
  uses_reserved e = false ->
  forall ρ w, eval call e (fr ∪ ρ) w = framed fr (eval call e ρ w).
Proof.
  intros Hfr.
  induction e as [z | s | c k | x | op a IHa b IHb | op a IHa | f args IH
                 | c IHc a IHa b IHb | x e IHe]; intros Hu ρ w;
    try reflexivity.
  - simpl in *. rewrite lookup_union_r by auto.
    destruct (ρ !! x); reflexivity.
  - simpl in *. apply orb_false_iff in Hu as [Hua Hub].
    rewrite (IHa Hua).
    destruct (eval call a ρ w) as [[[va ρ1] w1] | |]; simpl; try reflexivity.
    rewrite (IHb Hub).
    destruct (eval call b ρ1 w1) as [[[vb ρ2] w2] | |]; simpl; try reflexivity.
    destruct (as_int va) as [x | |]; simpl; try reflexivity.
    destruct (as_int vb) as [y | |]; simpl; try reflexivity.
    destruct (eval_binop op x y); reflexivity.
  - simpl in *. rewrite (IHa Hu).
    destruct (eval call a ρ w) as [[[va ρ1] w1] | |]; simpl; try reflexivity.
    destruct (as_int va); reflexivity.
  - rewrite !eval_call_unfold. simpl in Hu.
    rewrite (eval_args_framed fr args (list_all_Forall _ _ IH) Hu).
    destruct (eval_args call args ρ w) as [[[vs ρ1] w1] | |]; simpl; try reflexivity.
    destruct (call f vs w1) as [[v w2] | |]; reflexivity.
  - simpl in *. apply orb_false_iff in Hu as [Hu Hub].
    apply orb_false_iff in Hu as [Huc Hua].
    rewrite (IHc Huc).
    destruct (eval call c ρ w) as [[[vc ρ1] w1] | |]; simpl; try reflexivity.
    destruct (as_int vc) as [x | |]; simpl; try reflexivity.
    destruct (x =? 0); [apply (IHb Hub) | apply (IHa Hua)].
  - simpl in *. apply orb_false_iff in Hu as [Hx Hue].
    rewrite (IHe Hue).
    destruct (eval call e ρ w) as [[[v ρ1] w1] | |]; simpl; try reflexivity.
    rewrite insert_union_r by auto. reflexivity.
Qed.

(** A straight-line statement ends normally, and runs under the frame of
    the dispatcher as it does without it. *)
Lemma exec_straight_stmt (fr : env) (s : stmt) (ρ : env) (w : world) :
  only_reserved fr ->
  straight s = true ->
  exists r : res (env * world),
    exec call fuel s ρ w = (x ← r; Ok (Normal, x.1, x.2)) /\
    exec call fuel s (fr ∪ ρ) w = (x ← r; Ok (Normal, fr ∪ x.1, x.2)).
Proof.
  intros Hfr Hs. destruct s as [| | | | | | | e | x [e |]]; try discriminate Hs;
    simpl in Hs.
  - apply negb_true_iff in Hs. simpl. rewrite (eval_framed fr e Hfr Hs).
    destruct (eval call e ρ w) as [[[v ρ1] w1] | |].
    + exists (Ok (ρ1, w1)). split; reflexivity.
    + exists Stuck. split; reflexivity.
    + exists Timeout. split; reflexivity.
  - apply andb_true_iff in Hs as [Hx He].
    apply negb_true_iff in Hx, He. simpl. rewrite (eval_framed fr e Hfr He).
    destruct (eval call e ρ w) as [[[v ρ1] w1] | |].
    + exists (Ok (<[x := v]> ρ1, w1)). simpl.
      rewrite insert_union_r by auto. split; reflexivity.
    + exists Stuck. split; reflexivity.
    + exists Timeout. split; reflexivity.
  - exists (Ok (ρ, w)). split; reflexivity.
Qed.

Lemma exec_seq_app (l1 l2 : list stmt) (ρ : env) (w : world) :
  exec_seq (exec call fuel) (l1 ++ l2) ρ w =
    ('(sg, ρ1, w1) ← exec_seq (exec call fuel) l1 ρ w;
     match sg with
     | Normal => exec_seq (exec call fuel) l2 ρ1 w1
     | _ => Ok (sg, ρ1, w1)
     end).
Proof.
  revert ρ w. induction l1 as [| s l1 IH]; intros ρ w; simpl; [reflexivity |].
  destruct (exec call fuel s ρ w) as [[[sg ρ1] w1] | |]; simpl; try reflexivity.
  destruct sg; try reflexivity. apply IH.
Qed.

(** The statements of a block, followed by [rest], in the flattened
    function: the block's statements run as in the graph, then [rest]
    runs. *)
Lemma exec_seq_straight (fr : env) (ss rest : list stmt) (ρ : env) (w : world) :
  only_reserved fr ->
  forallb straight ss = true ->
  exec_seq (exec call fuel) (ss ++ rest) (fr ∪ ρ) w =
    ('(ρ1, w1) ← exec_straight call fuel ss ρ w;
     exec_seq (exec call fuel) rest (fr ∪ ρ1) w1).
Proof.
  intros Hfr. revert ρ w. unfold exec_straight.
  induction ss as [| s ss IH]; intros ρ w Hss; simpl; [reflexivity |].
  simpl in Hss. apply andb_true_iff in Hss as [Hs Hss].
  destruct (exec_straight_stmt fr s ρ w Hfr Hs) as (r & E1 & E2).
  rewrite E1, E2. destruct r as [[ρ1 w1] | |]; simpl; try reflexivity.
  apply IH. exact Hss.
Qed.

(** The value-to-state mapping of a [SwitchDispatch]: the first case
    with the label [z] sets the state and breaks; with no such case the
    mapping is left normally, for the default. *)
Lemma exec_cases_mapping (z : Z) (cases : list (Z * nat)) (default : nat)
  (ρ : env) (w : world) :
  exec_cases (exec_seq (exec call fuel)) z false
    ((fun c : Z * nat => (c.1, [set_state (LiteralInt (num c.2)); Break])) <$> cases)
    ρ w =
  if existsb (fun c : Z * nat => z =? c.1) cases
  then Ok (true, Broke, <[STATE := VInt (num (dispatch z cases default))]> ρ, w)
  else Ok (false, Normal, ρ, w).
Proof.
  induction cases as [| [l b] cases IH]; simpl; [reflexivity |].
  destruct (z =? l); simpl; [reflexivity | exact IH].
Qed.

Lemma dispatch_default (z : Z) (cases : list (Z * nat)) (default : nat) :
  existsb (fun c : Z * nat => z =? c.1) cases = false ->
  dispatch z cases default = default.
Proof.
  induction cases as [| [l b] cases IH]; simpl; [reflexivity |].
  destruct (z =? l); simpl; [discriminate | exact IH].
Qed.

(** The next-state code of a terminator, and the [break] that ends the
    arm: it leaves the arm by [break], with the dispatcher's variables
    set as the terminator says. *)
Lemma exec_next_state (K : nat) (rv : bool) (fr : env) (t : Cfg.terminator)
  (ρ : env) (w : world) :
  only_reserved fr ->
  term_ok K rv t = true ->
  exec_seq (exec call fuel) (next_state num t ++ [Break]) (fr ∪ ρ) w =
    ('(next, ρ1, w1) ← exec_term call t ρ w;
     Ok (Broke, after_term num fr t next ∪ ρ1, w1)).
Proof.
  intros Hfr Ht. destruct t as [next | c a b | [e |] | v cases default];
    simpl in Ht.
  - simpl. rewrite insert_union_l. reflexivity.
  - apply andb_true_iff in Ht as [Ht _]. apply andb_true_iff in Ht as [Hc _].
    apply negb_true_iff in Hc.
    simpl. rewrite (eval_framed fr c Hfr Hc).
    destruct (eval call c ρ w) as [[[vc ρ1] w1] | |]; simpl; try reflexivity.
    destruct (as_int vc) as [x | |]; simpl; try reflexivity.
    destruct (x =? 0); simpl; rewrite insert_union_l; reflexivity.
  - apply andb_true_iff in Ht as [_ He]. apply negb_true_iff in He.
    simpl. rewrite (eval_framed fr e Hfr He).
    destruct (eval call e ρ w) as [[[v ρ1] w1] | |]; simpl; try reflexivity.
    rewrite !insert_union_l. reflexivity.
  - simpl. rewrite insert_union_l. reflexivity.
  - apply andb_true_iff in Ht as [Ht _]. apply andb_true_iff in Ht as [Hv _].
    apply negb_true_iff in Hv.
    cbn [next_state app exec_seq exec exec_term].
    rewrite (eval_framed fr v Hfr Hv).
    destruct (eval call v ρ w) as [[[vv ρ1] w1] | |]; simpl; try reflexivity.
    destruct (as_int vv) as [z | |]; simpl; try reflexivity.
    rewrite (exec_cases_mapping z cases default).
    destruct (existsb (fun c : Z * nat => z =? c.1) cases) eqn:Hex; simpl.
    + rewrite insert_union_l. reflexivity.
    + rewrite (dispatch_default z cases default Hex), insert_union_l.
      reflexivity.
Qed.

(** An arm of the dispatch runs its block as the graph does, and leaves
    by [break]. *)
Lemma exec_arm (K : nat) (rv : bool) (fr : env) (i : nat) (b : Cfg.block)
  (ρ : env) (w : world) :
  only_reserved fr ->
  block_ok K rv b = true ->
  exec_seq (exec call fuel) (arm num i b).2 (fr ∪ ρ) w =
    ('(ρ1, w1) ← exec_straight call fuel (Cfg.stmts b) ρ w;
     '(next, ρ2, w2) ← exec_term call (Cfg.term b) ρ1 w1;
     Ok (Broke, after_term num fr (Cfg.term b) next ∪ ρ2, w2)).
Proof.
  intros Hfr Hb. apply andb_true_iff in Hb as [Hss Ht].
  unfold arm. simpl. rewrite (exec_seq_straight fr _ _ ρ w Hfr Hss).
  destruct (exec_straight call fuel (Cfg.stmts b) ρ w) as [[ρ1 w1] | |];
    simpl; try reflexivity.
  apply (exec_next_state K rv fr _ ρ1 w1 Hfr Ht).
Qed.

(** The dispatch on the state of block [i + j] skips the arms of the
    blocks before it and runs its arm. *)
Lemma exec_cases_arms
  (run : list stmt -> env -> world -> res (signal * env * world))
  (bs : list Cfg.block) :
  forall (i j : nat) (b : Cfg.block) (ρ : env) (w : world),
    bs !! j = Some b ->
    (forall j', (j' < j)%nat -> num (i + j') <> num (i + j)) ->
    (forall ρ1 w1, run (arm num (i + j) b).2 ρ w <> Ok (Normal, ρ1, w1)) ->
    exec_cases run (num (i + j)) false (arms_from num i bs) ρ w =
      ('(sg, ρ1, w1) ← run (arm num (i + j) b).2 ρ w; Ok (true, sg, ρ1, w1)).
Proof.
  induction bs as [| b0 bs IH]; intros i j b ρ w Hb Hne Hrun; [discriminate Hb |].
  destruct j as [| j]; simpl in Hb.
  - injection Hb as ->. rewrite Nat.add_0_r in *. simpl in *.
    rewrite Z.eqb_refl. simpl.
    destruct (run _ ρ w) as [[[sg ρ1] w1] | |] eqn:E; simpl; try reflexivity.
    destruct sg; try reflexivity. exfalso. exact (Hrun ρ1 w1 eq_refl).
  - simpl.
    assert (Hi : num i <> num (i + S j)).
    { specialize (Hne O). rewrite Nat.add_0_r in Hne. apply Hne. lia. }
    apply not_eq_sym, Z.eqb_neq in Hi. rewrite Hi.
    replace (i + S j)%nat with (S i + j)%nat in * by lia.
    apply IH; [exact Hb | | exact Hrun].
    intros j' Hj'. specialize (Hne (S j')).
    replace (i + S j')%nat with (S i + j')%nat in Hne by lia.
    apply Hne. lia.
Qed.

Lemma while_loop_unfold (body : env -> world -> res (signal * env * world))
  (c : expr) (k : nat) (ρ : env) (w : world) :
  while_loop call body c k ρ w =
    ('(vc, ρ1, w1) ← eval call c ρ w;
     x ← as_int vc;
     if x =? 0 then Ok (Normal, ρ1, w1)
     else
       match k with
       | O => Timeout
       | S k' =>
           '(sg, ρ2, w2) ← body ρ1 w1;
           match sg with
           | Normal | Continued => while_loop call body c k' ρ2 w2
           | Broke => Ok (Normal, ρ2, w2)
           | Returned v => Ok (Returned v, ρ2, w2)
           end
       end).
Proof. destruct k; reflexivity. Qed.

Lemma run_cfg_unfold (g : Cfg.cfg) (k pc : nat) (ρ : env) (w : world) :
  run_cfg call fuel g k pc ρ w =
    match Cfg.blocks g !! pc with
    | None => Stuck
    | Some b =>
        match k with
        | O => Timeout
        | S k' =>
            '(ρ1, w1) ← exec_straight call fuel (Cfg.stmts b) ρ w;
            '(next, ρ2, w2) ← exec_term call (Cfg.term b) ρ1 w1;
            match next with
            | inl pc' => run_cfg call fuel g k' pc' ρ2 w2
            | inr v => Ok (v, w2)
            end
        end
    end.
Proof. destruct k; reflexivity. Qed.

Lemma eval_not_done (ρ : env) (w : world) (d : Z) :
  ρ !! DONE = Some (VInt d) ->
  eval call (UnaryOp Not (Ident DONE)) ρ w = Ok (VInt (of_bool (d =? 0)), ρ, w).
Proof. intros H. simpl. rewrite H. reflexivity. Qed.

Lemma dispatch_lt (K : nat) (z : Z) (cases : list (Z * nat)) (default : nat) :
  forallb (fun c : Z * nat => bool_decide (c.2 < K)%nat) cases = true ->
  (default < K)%nat ->
  (dispatch z cases default < K)%nat.
Proof.
  intros Hc Hd. induction cases as [| [l b] cases IH]; simpl in *; [exact Hd |].
  apply andb_true_iff in Hc as [Hb Hc]. apply bool_decide_eq_true in Hb.
  destruct (z =? l); auto.
Qed.

(** A terminator of a well-formed graph leads to a block of the graph. *)
Lemma exec_term_target (K : nat) (rv : bool) (t : Cfg.terminator)
  (ρ ρ1 : env) (w w1 : world) (pc : nat) :
  term_ok K rv t = true ->
  exec_term call t ρ w = Ok (inl pc, ρ1, w1) ->
  (pc < K)%nat.
Proof.
  intros Ht E. destruct t as [next | c a b | [e |] | v cases default];
    simpl in Ht, E.
  - apply bool_decide_eq_true in Ht. congruence.
  - apply andb_true_iff in Ht as [Ht Hb]. apply andb_true_iff in Ht as [_ Ha].
    apply bool_decide_eq_true in Ha, Hb.
    destruct (eval call c ρ w) as [[[vc ρ2] w2] | |]; simpl in E; try discriminate E.
    destruct (as_int vc) as [x | |]; simpl in E; try discriminate E.
    injection E as <- _ _. destruct (x =? 0); assumption.
  - destruct (eval call e ρ w) as [[[v ρ2] w2] | |]; discriminate E.
  - discriminate E.
  - apply andb_true_iff in Ht as [Ht Hd]. apply andb_true_iff in Ht as [_ Hc].
    apply bool_decide_eq_true in Hd.
    destruct (eval call v ρ w) as [[[vv ρ2] w2] | |]; simpl in E; try discriminate E.
    destruct (as_int vv) as [z | |]; simpl in E; try discriminate E.
    injection E as <- _ _. apply dispatch_lt; assumption.
Qed.

(** When a terminator of a well-formed graph returns, the dispatcher
    holds the returned value if the function returns one. *)
Lemma exec_term_return (K : nat) (rv : bool) (fr : env) (t : Cfg.terminator)
  (ρ ρ1 : env) (w w1 : world) (v : val) :
  term_ok K rv t = true ->
  exec_term call t ρ w = Ok (inr v, ρ1, w1) ->
  after_term num fr t (inr v) !! DONE = Some (VInt 1) /\
  if rv then after_term num fr t (inr v) !! RET = Some v else v = VVoid.
Proof.
  intros Ht E. split; [apply lookup_insert_eq |].
  destruct t as [next | c a b | [e |] | u cases default]; simpl in Ht, E.
  - discriminate E.
  - destruct (eval call c ρ w) as [[[vc ρ2] w2] | |]; simpl in E; try discriminate E.
    destruct (as_int vc); discriminate E.
  - apply andb_true_iff in Ht as [-> _]. simpl.
    rewrite lookup_insert_ne by discriminate. apply lookup_insert_eq.
  - apply negb_true_iff in Ht. rewrite Ht. congruence.
  - destruct (eval call u ρ w) as [[[vv ρ2] w2] | |]; simpl in E; try discriminate E.
    destruct (as_int vv); discriminate E.
Qed.

Section Graph.

Variable g : Cfg.cfg.
Hypothesis g_ok : cfg_ok num g = true.

Lemma entry_lt : (Cfg.entry g < length (Cfg.blocks g))%nat.
Proof.
  unfold cfg_ok in g_ok. apply andb_true_iff in g_ok as [H _].
  apply andb_true_iff in H as [H _]. apply bool_decide_eq_true in H. exact H.
Qed.

Lemma blocks_ok (pc : nat) (b : Cfg.block) :
  Cfg.blocks g !! pc = Some b ->
  block_ok (length (Cfg.blocks g)) (returns_value g) b = true.
Proof.
  intros Hb. unfold cfg_ok in g_ok. apply andb_true_iff in g_ok as [H _].
  apply andb_true_iff in H as [_ H]. rewrite forallb_forall in H.
  apply H. apply list_elem_of_In. eapply list_elem_of_lookup_2. exact Hb.
Qed.

Lemma num_inj (i j : nat) :
  (i < length (Cfg.blocks g))%nat -> (j < length (Cfg.blocks g))%nat ->
  num i = num j -> i = j.
Proof.
  intros Hi Hj E. unfold cfg_ok in g_ok. apply andb_true_iff in g_ok as [_ H].
  apply bool_decide_eq_true in H. rewrite NoDup_alt in H.
  apply (H i j (num i)).
  - rewrite list_lookup_fmap, lookup_seq_lt by exact Hi. reflexivity.
  - rewrite list_lookup_fmap, lookup_seq_lt by exact Hj. simpl. congruence.
Qed.

(** One iteration of the loop runs the block whose state the state
    variable holds. *)
Lemma exec_dispatch (pc : nat) (b : Cfg.block) (fr ρ : env) (w : world) :
  Cfg.blocks g !! pc = Some b ->
  only_reserved fr ->
  fr !! STATE = Some (VInt (num pc)) ->
  exec call fuel (dispatch_on_state num g) (fr ∪ ρ) w =
    ('(ρ1, w1) ← exec_straight call fuel (Cfg.stmts b) ρ w;
     '(next, ρ2, w2) ← exec_term call (Cfg.term b) ρ1 w1;
     Ok (Normal, after_term num fr (Cfg.term b) next ∪ ρ2, w2)).
Proof.
  intros Hb Hfr Hst.
  pose proof (blocks_ok pc b Hb) as Hbok.
  pose proof (exec_arm _ _ fr pc b ρ w Hfr Hbok) as Harm.
  assert (Hpc : (pc < length (Cfg.blocks g))%nat) by (eapply lookup_lt_Some; exact Hb).
  unfold dispatch_on_state. cbn [exec eval].
  rewrite (lookup_union_Some_l fr ρ STATE _ Hst). cbn [mbind res_bind as_int].
  change (num pc) with (num (0 + pc)).
  rewrite (exec_cases_arms (exec_seq (exec call fuel)) (Cfg.blocks g) 0 pc b (fr ∪ ρ) w Hb).
  - cbn [Nat.add]. rewrite Harm.
    destruct (exec_straight call fuel (Cfg.stmts b) ρ w) as [[ρ1 w1] | |];
      simpl; try reflexivity.
    destruct (exec_term call (Cfg.term b) ρ1 w1) as [[[next ρ2] w2] | |];
      reflexivity.
  - intros j' Hj' E. cbn [Nat.add] in E.
    apply num_inj in E; lia.
  - intros ρ1 w1. cbn [Nat.add]. rewrite Harm.
    destruct (exec_straight call fuel (Cfg.stmts b) ρ w) as [[ρ2 w2] | |];
      simpl; try discriminate.
    destruct (exec_term call (Cfg.term b) ρ2 w2) as [[[next ρ3] w3] | |];
      discriminate.
Qed.

Lemma loop_simulates (k : nat) :
  forall (pc : nat) (fr ρ : env) (w : world),
    (pc < length (Cfg.blocks g))%nat ->
    only_reserved fr ->
    fr !! STATE = Some (VInt (num pc)) ->
    fr !! DONE = Some (VInt 0) ->
    loop_matches g
      (run_cfg call fuel g k pc ρ w)
      (while_loop call (exec call fuel (dispatch_on_state num g))
         (UnaryOp Not (Ident DONE)) k (fr ∪ ρ) w).
Proof.
  induction k as [| k IH]; intros pc fr ρ w Hpc Hfr Hst Hdn;
    destruct (lookup_lt_is_Some_2 _ _ Hpc) as [b Hb];
    rewrite while_loop_unfold,
      (eval_not_done _ w 0 (lookup_union_Some_l fr ρ DONE _ Hdn));
    rewrite run_cfg_unfold, Hb;
    cbn [mbind res_bind as_int];
    change (of_bool (0 =? 0) =? 0) with false; cbv iota.
  - reflexivity.
  - rewrite (exec_dispatch pc b fr ρ w Hb Hfr Hst).
    pose proof (blocks_ok pc b Hb) as Hbok.
    apply andb_true_iff in Hbok as [_ Ht].
    destruct (exec_straight call fuel (Cfg.stmts b) ρ w) as [[ρ1 w1] | |];
      cbn [mbind res_bind loop_matches]; try reflexivity.
    destruct (exec_term call (Cfg.term b) ρ1 w1) as [[[[pc' | v] ρ2] w2] | |] eqn:E;
      cbn [mbind res_bind loop_matches]; try reflexivity.
    + apply IH.
      * eapply exec_term_target; eassumption.
      * intros x Hx. simpl. rewrite lookup_insert_ne; [auto |].
        intros <-. discriminate Hx.
      * apply lookup_insert_eq.
      * simpl. rewrite lookup_insert_ne by discriminate. exact Hdn.
    + destruct (exec_term_return _ _ fr _ _ _ _ _ _ Ht E) as [Hdone Hret].
      rewrite while_loop_unfold,
        (eval_not_done _ w2 1 (lookup_union_Some_l _ ρ2 DONE _ Hdone)).
      cbn [mbind res_bind as_int].
      change (of_bool (1 =? 0) =? 0) with true. cbv iota.
      eexists. split; [reflexivity |].
      destruct (returns_value g); [| exact Hret].
      apply lookup_union_Some_l. exact Hret.
Qed.

(** The flattened function returns what the graph returns, with the same
    effect on the world, and it stops (with an error, or at the bound on
    the iterations) exactly when the graph does. *)
Lemma run_tree_flatten (ρ : env) (w : world) :
  run_tree call fuel (flatten num g) ρ w =
  run_cfg call fuel g fuel (Cfg.entry g) ρ w.
Proof.
  set (fr := <[DONE := VInt 0]> (<[STATE := VInt (num (Cfg.entry g))]> (∅ : env))).
  assert (Hfr : only_reserved fr).
  { intros x Hx. unfold fr.
    rewrite !lookup_insert_ne; [apply lookup_empty | |]; intros <-; discriminate Hx. }
  assert (Hst : fr !! STATE = Some (VInt (num (Cfg.entry g)))).
  { unfold fr. rewrite lookup_insert_ne by discriminate. apply lookup_insert_eq. }
  assert (Hdn : fr !! DONE = Some (VInt 0)) by apply lookup_insert_eq.
  pose proof (loop_simulates fuel (Cfg.entry g) fr ρ w entry_lt Hfr Hst Hdn) as H.
  unfold run_tree, flatten.
  cbn [exec_seq exec eval mbind res_bind].
  replace (<[DONE := VInt 0]> (<[STATE := VInt (num (Cfg.entry g))]> ρ))
    with (fr ∪ ρ)
    by (unfold fr; rewrite <- !insert_union_l, (left_id_L ∅ (∪)); reflexivity).
  destruct (run_cfg call fuel g fuel (Cfg.entry g) ρ w) as [[v w'] | |];
    unfold loop_matches in H.
  - destruct H as (ρ' & -> & Hret). simpl.
    destruct (returns_value g); simpl.
    + rewrite Hret. reflexivity.
    + rewrite Hret. reflexivity.
  - rewrite H. reflexivity.
  - rewrite H. reflexivity.
Qed.

End Graph.

End FlatteningCorrect.

(** ** Running with two ways to call that agree *)

Section CallExt.
Import Ast.

Context {world : Type}.
Variables call1 call2 : string -> list val -> world -> res (val * world).
Hypothesis call_agree : forall f vs w, call1 f vs w = call2 f vs w.
Variable fuel : nat.

Lemma eval_args_ext (args : list expr) :
  Forall (fun e => forall ρ w, eval call1 e ρ w = eval call2 e ρ w) args ->
  forall ρ w, eval_args call1 args ρ w = eval_args call2 args ρ w.
Proof.
  induction 1 as [| a l Ha _ IH]; intros ρ w; simpl; [reflexivity |].
  rewrite Ha.
  destruct (eval call2 a ρ w) as [[[v ρ1] w1] | |]; simpl; try reflexivity.
  rewrite IH. reflexivity.
Qed.

Lemma eval_ext (e : expr) :
  forall ρ w, eval call1 e ρ w = eval call2 e ρ w.
Proof.
  induction e as [z | s | c k | x | op a IHa b IHb | op a IHa | f args IH
                 | c IHc a IHa b IHb | x e IHe]; intros ρ w;
    try reflexivity.
  - simpl. rewrite IHa.
    destruct (eval call2 a ρ w) as [[[va ρ1] w1] | |]; simpl; try reflexivity.
    rewrite IHb. reflexivity.
  - simpl. rewrite IHa. reflexivity.
  - rewrite !eval_call_unfold.
    rewrite (eval_args_ext args (list_all_Forall _ _ IH)).
    destruct (eval_args call2 args ρ w) as [[[vs ρ1] w1] | |]; simpl;
      try reflexivity.
    rewrite call_agree. reflexivity.
  - simpl. rewrite IHc.
    destruct (eval call2 c ρ w) as [[[vc ρ1] w1] | |]; simpl; try reflexivity.
    destruct (as_int vc) as [x | |]; simpl; try reflexivity.
    destruct (x =? 0); [apply IHb | apply IHa].
  - simpl. rewrite IHe. reflexivity.
Qed.

Lemma exec_seq_ext (run1 run2 : stmt -> env -> world -> res (signal * env * world))
  (l : list stmt) :
  Forall (fun s => forall ρ w, run1 s ρ w = run2 s ρ w) l ->
  forall ρ w, exec_seq run1 l ρ w = exec_seq run2 l ρ w.
Proof.
  induction 1 as [| s l Hs _ IH]; intros ρ w; simpl; [reflexivity |].
  rewrite Hs.
  destruct (run2 s ρ w) as [[[sg ρ1] w1] | |]; simpl; try reflexivity.
  destruct sg; try reflexivity. apply IH.
Qed.

Lemma exec_cases_ext
  (run1 run2 : list stmt -> env -> world -> res (signal * env * world))
  (z : Z) (cases : list (Z * list stmt)) :
  Forall (fun c : Z * list stmt => forall ρ w, run1 c.2 ρ w = run2 c.2 ρ w) cases ->
  forall entered ρ w,
    exec_cases run1 z entered cases ρ w = exec_cases run2 z entered cases ρ w.
Proof.
  induction 1 as [| [l ss] cs Hc _ IH]; intros entered ρ w; simpl;
    [reflexivity |].
  simpl in Hc. destruct (entered || (z =? l)); [| apply IH].
  rewrite Hc.
  destruct (run2 ss ρ w) as [[[sg ρ1] w1] | |]; simpl; try reflexivity.
  destruct sg; try reflexivity. apply IH.
Qed.

Lemma while_loop_call_ext
  (body1 body2 : env -> world -> res (signal * env * world)) (c : expr) :
  (forall ρ w, body1 ρ w = body2 ρ w) ->
  forall k ρ w,
    while_loop call1 body1 c k ρ w = while_loop call2 body2 c k ρ w.
Proof.
  intros Hb. induction k as [| k IH]; intros ρ w; simpl; rewrite eval_ext.
  - reflexivity.
  - destruct (eval call2 c ρ w) as [[[vc ρ1] w1] | |]; simpl; try reflexivity.
    destruct (as_int vc) as [x | |]; simpl; try reflexivity.
    destruct (x =? 0); [reflexivity |].
    rewrite Hb.
    destruct (body2 ρ1 w1) as [[[sg ρ2] w2] | |]; simpl; try reflexivity.
    destruct sg; try reflexivity; apply IH.
Qed.

Lemma exec_ext (s : stmt) :
  forall ρ w, exec call1 fuel s ρ w = exec call2 fuel s ρ w.
Proof.
  induction s as [ss IH | c t IHt e IHe | c b IHb | v cases IHc default IHd
                 | | | e | e | x init]; intros ρ w; try reflexivity.
  - simpl. apply exec_seq_ext. apply list_all_Forall. exact IH.
  - simpl. rewrite eval_ext.
    destruct (eval call2 c ρ w) as [[[vc ρ1] w1] | |]; simpl; try reflexivity.
    destruct (as_int vc) as [x | |]; simpl; try reflexivity.
    destruct (x =? 0); [apply IHe | apply IHt].
  - simpl. apply while_loop_call_ext. exact IHb.
  - simpl. rewrite eval_ext.
    destruct (eval call2 v ρ w) as [[[vv ρ1] w1] | |]; simpl; try reflexivity.
    destruct (as_int vv) as [z | |]; simpl; try reflexivity.
    rewrite (exec_cases_ext (exec_seq (exec call1 fuel)) (exec_seq (exec call2 fuel))
               z cases).
    + destruct (exec_cases (exec_seq (exec call2 fuel)) z false cases ρ1 w1)
        as [[[[en sg] ρ2] w2] | |]; simpl; try reflexivity.
      destruct sg; try reflexivity.
      destruct IHd as [ss Hss |]; [| reflexivity].
      rewrite (exec_seq_ext (exec call1 fuel) (exec call2 fuel) ss
                 (list_all_Forall _ _ Hss)).
      reflexivity.
    + eapply list_all_impl_Forall; [| exact IHc].
      intros c0 Hc0. destruct Hc0 as [l _ ss Hss]. simpl.
      apply exec_seq_ext. apply list_all_Forall. exact Hss.
  - destruct e as [e |]; [| reflexivity]. simpl. rewrite eval_ext. reflexivity.
  - simpl. rewrite eval_ext. reflexivity.
  - destruct init as [e |]; [| reflexivity]. simpl. rewrite eval_ext. reflexivity.
Qed.

Lemma exec_stmts_ext (ss : list stmt) (ρ : env) (w : world) :
  exec_seq (exec call1 fuel) ss ρ w = exec_seq (exec call2 fuel) ss ρ w.
Proof. apply exec_seq_ext. apply Forall_forall. intros s _. apply exec_ext. Qed.

Lemma exec_term_ext (t : Cfg.terminator) (ρ : env) (w : world) :
  exec_term call1 t ρ w = exec_term call2 t ρ w.
Proof.
  destruct t as [next | c a b | [e |] | v cases default]; simpl;
    try rewrite eval_ext; reflexivity.
Qed.

Lemma run_cfg_ext (g : Cfg.cfg) (k : nat) :
  forall pc ρ w, run_cfg call1 fuel g k pc ρ w = run_cfg call2 fuel g k pc ρ w.
Proof.
  induction k as [| k IH]; intros pc ρ w; simpl; [reflexivity |].
  destruct (Cfg.blocks g !! pc) as [b |]; [| reflexivity].
  unfold exec_straight. rewrite exec_stmts_ext.
  destruct (exec_seq (exec call2 fuel) (Cfg.stmts b) ρ w) as [[[sg ρ1] w1] | |];
    simpl; try reflexivity.
  destruct sg; simpl; try reflexivity.
  rewrite exec_term_ext.
  destruct (exec_term call2 (Cfg.term b) ρ1 w1) as [[[[pc' | v] ρ2] w2] | |];
    simpl; try reflexivity.
  apply IH.
Qed.

Lemma run_body_ext (b : body) (ρ : env) (w : world) :
  run_body call1 fuel b ρ w = run_body call2 fuel b ρ w.
Proof.
  destruct b as [g | ss]; simpl.
  - apply run_cfg_ext.
  - unfold run_tree. rewrite exec_stmts_ext. reflexivity.
Qed.

End CallExt.

(** ** The whole pipeline *)

Section PipelineCorrect.

Context {world gen : Type}.
Variable extern : string -> list Ast.val -> world -> res (Ast.val * world).
Variable next_key : gen -> list Z * gen.
Variable seed : string -> gen.
Variable num : nat -> Z.

Lemma lookup_func_obfuscate (p : program) (f : string) :
  lookup_func (obfuscate next_key seed num p) f =
    (fun fn => Build_func (params fn) (obfuscate_body next_key seed num f (fbody fn)))
      <$> lookup_func p f.
Proof.
  induction p as [| [name fn] p IH]; simpl; [reflexivity |].
  destruct (decide (name = f)) as [-> | Hne]; [reflexivity | exact IH].
Qed.

Lemma lookup_func_ok (p : program) (f : string) (fn : func) :
  program_ok num p = true ->
  lookup_func p f = Some fn ->
  body_ok num (fbody fn) = true.
Proof.
  induction p as [| [name fn'] p IH]; simpl; intros Hp Hf; [discriminate Hf |].
  apply andb_true_iff in Hp as [Hfn Hp].
  destruct (decide (name = f)); [| auto].
  injection Hf as <-. exact Hfn.
Qed.

(** A body runs the same before and after the two passes. *)
Lemma run_body_obfuscate
  (call : string -> list Ast.val -> world -> res (Ast.val * world))
  (fuel : nat) (name : string) (b : body) (ρ : env) (w : world) :
  body_ok num b = true ->
  run_body call fuel (obfuscate_body next_key seed num name b) ρ w =
  run_body call fuel b ρ w.
Proof.
  intros Hb. unfold obfuscate_body. simpl.
  rewrite run_tree_encrypt_strings.
  destruct b as [g | ss]; simpl; [| reflexivity].
  apply run_tree_flatten. exact Hb.
Qed.

Lemma call_fn_S (p : program) (n : nat) (f : string) (args : list Ast.val) (w : world) :
  call_fn extern p (S n) f args w =
    match lookup_func p f with
    | None => extern f args w
    | Some fn =>
        match bind_params (params fn) args with
        | None => Stuck
        | Some ρ => run_body (call_fn extern p n) n (fbody fn) ρ w
        end
    end.
Proof. reflexivity. Qed.

Lemma call_fn_obfuscate (p : program) :
  program_ok num p = true ->
  forall n f args w,
    call_fn extern (obfuscate next_key seed num p) n f args w =
    call_fn extern p n f args w.
Proof.
  intros Hp. induction n as [| n IH]; intros f args w; [reflexivity |].
  rewrite !call_fn_S, lookup_func_obfuscate.
  destruct (lookup_func p f) as [fn |] eqn:Hf; [| reflexivity].
  cbn [fmap option_fmap option_map params fbody].
  destruct (bind_params (params fn) args) as [ρ |]; [| reflexivity].
  rewrite (run_body_obfuscate _ _ _ _ _ _ (lookup_func_ok p f fn Hp Hf)).
  apply run_body_ext. exact IH.
Qed.

End PipelineCorrect.

(** ** The round trip of the literals *)

(** C7: every string literal that the string-encryption pass finds
    round-trips: decrypting the encryption of a literal gives the literal
    back, byte for byte, whatever the key; so do the empty literal and
    the literal "%d "; and the pass makes one Encrypted Literal record
    for each literal of the tree, in source order, each of which
    satisfies [decrypt cipher key = original]. *)
Theorem literal_round_trip :
  (forall key lit : list Z, Cipher.decrypt key (Cipher.encrypt key lit) = lit) /\
  (forall key : list Z, Cipher.decrypt key (Cipher.encrypt key []) = []) /\
  (forall key : list Z,
     Cipher.decrypt key (Cipher.encrypt key (StringEncryption.bytes_of "%d ")) =
     StringEncryption.bytes_of "%d ") /\
  (forall (gen : Type) (next_key : gen -> list Z * gen) (seed : gen)
          (ss : list Ast.stmt),
     Cipher.original <$> (encrypt_strings next_key seed ss).2 =
       mjoin (literals_stmt <$> ss) /\
     Forall Cipher.round_trips (encrypt_strings next_key seed ss).2).
Proof.
  split; [| split; [| split]].
  - intros key lit. apply decrypt_encrypt.
  - intros key. apply decrypt_encrypt.
  - intros key. apply decrypt_encrypt.
  - intros gen next_key seed ss. apply encrypt_strings_records.
Qed.

(** ** The two passes on the fragment *)

(** For a translation unit of the fragment whose graphs are well formed,
    the flattened form of each function gives the same result (returned
    value and world) as its graph, for every frame of arguments, every
    world and every bound on the iterations; and a call of any function
    of the flattened and encrypted unit gives the same result as the
    same call of the original unit.  The graphs are taken as given: the
    statement does not relate them to the C source they stand for. *)
Theorem obfuscation_preserves_behaviour {world gen : Type}
  (extern : string -> list Ast.val -> world -> res (Ast.val * world))
  (next_key : gen -> list Z * gen) (seed : string -> gen) (num : nat -> Z)
  (p : program) :
  program_ok num p = true ->
  (forall name fn g,
     lookup_func p name = Some fn ->
     fbody fn = Graph g ->
     forall call fuel ρ w,
       run_body (world := world) call fuel (Tree (flatten num g)) ρ w =
       run_body call fuel (Graph g) ρ w) /\
  (forall n f args w,
     call_fn extern (obfuscate next_key seed num p) n f args w =
     call_fn extern p n f args w).
Proof.
  intros Hp. split.
  - intros name fn g Hf Hg call fuel ρ w. simpl.
    apply run_tree_flatten.
    pose proof (lookup_func_ok num p name fn Hp Hf) as Hb.
    rewrite Hg in Hb. exact Hb.
  - apply call_fn_obfuscate. exact Hp.
Qed.

(** The pipeline on examples/control_flow.c: the unit is well formed,
    and [main] of the obfuscated unit gives what [main] of the original
    gives. *)
Lemma obfuscation_preserves_control_flow_unit :
  program_ok ControlFlowUnit.num ControlFlowUnit.unit = true /\
  call_fn ControlFlowUnit.builtins ControlFlowUnit.obfuscated 300 "main" [] [] =
  call_fn ControlFlowUnit.builtins ControlFlowUnit.unit 300 "main" [] [].
Proof.
  split; [vm_compute; reflexivity |].
  apply (proj2 (obfuscation_preserves_behaviour ControlFlowUnit.builtins
                  ControlFlowUnit.next_key ControlFlowUnit.seed
                  ControlFlowUnit.num ControlFlowUnit.unit
                  ltac:(vm_compute; reflexivity))).
Defined.

(** ** The pipeline at work *)

(** [main] of the original unit prints the seven lines of the program and
    returns 0: the graphs compute what the embedded functions compute. *)
Example control_flow_unit_runs :
  call_fn ControlFlowUnit.builtins ControlFlowUnit.unit 300 "main" [] [] =
    Ok (Ast.VInt 0, ControlFlowUnit.expected_output).
Proof. vm_compute. reflexivity. Qed.

(** So does [main] of the obfuscated unit. *)
Example obfuscated_unit_runs :
  call_fn ControlFlowUnit.builtins ControlFlowUnit.obfuscated 300 "main" [] [] =
    Ok (Ast.VInt 0, ControlFlowUnit.expected_output).
Proof. vm_compute. reflexivity. Qed.

(** The graphs agree with the embedded functions on the values that the
    program prints. *)
Example expected_output_is_embedded :
  drop 1 <$> ControlFlowUnit.expected_output =
    [ [Ast.VInt (ControlFlow.process_value 120)];
      [Ast.VInt (ControlFlow.process_value 75)];
      [Ast.VInt (ControlFlow.process_value 30)];
      [Ast.VInt (ControlFlow.complex_loops 10)];
      [Ast.VInt (ControlFlow.complex_switch 1)];
      [Ast.VInt (ControlFlow.complex_switch 2)];
      [Ast.VInt (ControlFlow.complex_switch 4)] ].
Proof. vm_compute. reflexivity. Qed.

(** No string literal is left in the obfuscated unit, and the cipher of a
    literal is not the literal. *)
Example obfuscated_unit_has_no_literal :
  (fun d : string * func =>
     match fbody d.2 with
     | Tree ss => mjoin (literals_stmt <$> ss)
     | Graph _ => []
     end) <$> ControlFlowUnit.obfuscated = [[]; []; []; []] /\
  Cipher.encrypt [120; 86; 52; 18] (StringEncryption.bytes_of "%d ") <>
    StringEncryption.bytes_of "%d ".
Proof. split; [vm_compute; reflexivity | vm_compute; discriminate]. Qed.

(** * Further properties of the corpus *)

(** ** examples/control_flow.c *)

(** X1: the sign of [process_value] where the C code computes without
    overflow: for an input that fits an [int] and is neither odd and
    above 715827882 nor even and below -46340 (the inputs for which
    [value * 3 + 1] or [value * value] leaves the range of [int]), the
    result fits an [int]; it is positive exactly when the input is
    positive or an even negative number, and it is zero exactly when the
    input is 0 or -1. *)
Theorem process_value_sign (value : Z) :
  IntRange.fits value ->
  ~ (715827882 < value /\ Z.rem value 2 <> 0) ->
  ~ (value < -46340 /\ Z.rem value 2 = 0) ->
  IntRange.fits (ControlFlow.process_value value) /\
  (0 < ControlFlow.process_value value <->
   0 < value \/ (value < 0 /\ Z.rem value 2 = 0)) /\
  (ControlFlow.process_value value = 0 <-> value = 0 \/ value = -1).
Proof.
  unfold IntRange.fits, IntRange.INT_MIN, IntRange.INT_MAX,
    ControlFlow.process_value.
  intros Hv Hodd Heven.
  destruct (Z.gtb_spec value 100); [| destruct (Z.gtb_spec value 50)];
    repeat match goal with
           | |- context [Z.rem value ?k =? 0] => destruct (Z.eqb_spec (Z.rem value k) 0)
           end;
    cbv zeta; Z.quot_rem_to_equations;
    (split; [| split; split; intros]); try nia.
Qed.

Lemma process_value_sign_witness :
  IntRange.fits (-46340) /\
  ~ (715827882 < -46340 /\ Z.rem (-46340) 2 <> 0) /\
  ~ (-46340 < -46340 /\ Z.rem (-46340) 2 = 0) /\
  IntRange.fits (ControlFlow.process_value (-46340)) /\
  (0 < ControlFlow.process_value (-46340) <->
   0 < -46340 \/ (-46340 < 0 /\ Z.rem (-46340) 2 = 0)) /\
  (ControlFlow.process_value (-46340) = 0 <-> -46340 = 0 \/ -46340 = -1).
Proof.
  assert (H1 : IntRange.fits (-46340))
    by (unfold IntRange.fits, IntRange.INT_MIN, IntRange.INT_MAX; lia).
  assert (H2 : ~ (715827882 < -46340 /\ Z.rem (-46340) 2 <> 0)) by lia.
  assert (H3 : ~ (-46340 < -46340 /\ Z.rem (-46340) 2 = 0)) by lia.
  split; [exact H1 |]. split; [exact H2 |]. split; [exact H3 |].
  apply (process_value_sign (-46340) H1 H2 H3).
Defined.

(** X2: when [process_value] overflows: for an input that fits an [int],
    the exact result fits an [int] unless the input is odd and above
    715827882 (then [value * 3 + 1] is too large) or even and below
    -46340 (then [value * value] is too large). *)
Theorem process_value_fits_iff (value : Z) :
  IntRange.fits value ->
  (IntRange.fits (ControlFlow.process_value value) <->
   ~ (715827882 < value /\ Z.rem value 2 <> 0) /\
   ~ (value < -46340 /\ Z.rem value 2 = 0)).
Proof.
  unfold IntRange.fits, IntRange.INT_MIN, IntRange.INT_MAX,
    ControlFlow.process_value.
  intros Hv.
  destruct (Z.gtb_spec value 100); [| destruct (Z.gtb_spec value 50)];
    repeat match goal with
           | |- context [Z.rem value ?k =? 0] => destruct (Z.eqb_spec (Z.rem value k) 0)
           end;
    cbv zeta; Z.quot_rem_to_equations; split; intros; try nia.
Qed.

Lemma process_value_fits_iff_witness :
  IntRange.fits 715827883 /\
  (IntRange.fits (ControlFlow.process_value 715827883) <->
   ~ (715827882 < 715827883 /\ Z.rem 715827883 2 <> 0) /\
   ~ (715827883 < -46340 /\ Z.rem 715827883 2 = 0)).
Proof.
  assert (H : IntRange.fits 715827883)
    by (unfold IntRange.fits, IntRange.INT_MIN, IntRange.INT_MAX; lia).
  split; [exact H | apply (process_value_fits_iff 715827883 H)].
Defined.

(** X3: [complex_switch] on every code: 200 for 1, 250 for 2, 4 and 5,
    300 for 3, and -1 for every other code. *)
Theorem complex_switch_all_codes (code : Z) :
  ControlFlow.complex_switch code =
    if code =? 1 then 200
    else if (code =? 2) || (code =? 4) || (code =? 5) then 250
    else if code =? 3 then 300
    else -1.
Proof.
  unfold ControlFlow.complex_switch, Switch.switch. simpl.
  destruct (Z.eqb_spec code 1) as [-> | ?]; [reflexivity |].
  destruct (Z.eqb_spec code 2) as [-> | ?]; [reflexivity |].
  destruct (Z.eqb_spec code 3) as [-> | ?]; [reflexivity |].
  destruct (Z.eqb_spec code 4) as [-> | ?]; [reflexivity |].
  destruct (Z.eqb_spec code 5) as [-> | ?]; reflexivity.
Qed.


(** One iteration of the outer loop of [complex_loops]. *)
Lemma outer_loop_step (n i : Z) (s : ControlFlow.loops_state) :
  i < n ->
  ControlFlow.outer_loop n i s =
    if Z.rem i 3 =? 0
    then ControlFlow.outer_loop n (i + 1) (ControlFlow.take ControlFlow.ContinueOuter s)
    else
      let s1 := ControlFlow.inner_loop i 0 s in
      if ControlFlow.sum s1 >? 2000 then ControlFlow.take ControlFlow.BreakOuter s1
      else ControlFlow.outer_loop n (i + 1) s1.
Proof.
  intros Hi. rewrite ControlFlow.outer_loop_equation_1.
  destruct (Z_lt_ge_dec i n); [reflexivity | lia].
Qed.

Lemma outer_loop_done (n i : Z) (s : ControlFlow.loops_state) :
  n <= i -> ControlFlow.outer_loop n i s = s.
Proof.
  intros Hi. rewrite ControlFlow.outer_loop_equation_1.
  destruct (Z_lt_ge_dec i n); [lia | reflexivity].
Qed.

(** A run of the outer loop up to [n] goes through the run up to [m],
    if that one ends with [sum] at 2000 or less (so not by the outer
    [break]). *)
Lemma outer_loop_split (d : nat) :
  forall (n m i : Z) (s : ControlFlow.loops_state),
    Z.to_nat (m - i) = d -> i <= m <= n ->
    ControlFlow.sum (ControlFlow.outer_loop m i s) <= 2000 ->
    ControlFlow.outer_loop n i s =
    ControlFlow.outer_loop n m (ControlFlow.outer_loop m i s).
Proof.
  induction d as [| d IH]; intros n m i s Hd Him Hsum.
  - assert (i = m) as -> by lia. rewrite (outer_loop_done m m) by lia.
    reflexivity.
  - rewrite (outer_loop_step m i) in * by lia.
    rewrite (outer_loop_step n i) by lia.
    destruct (Z.rem i 3 =? 0).
    + apply IH; [lia | lia | exact Hsum].
    + cbv zeta in *.
      destruct (Z.gtb_spec (ControlFlow.sum (ControlFlow.inner_loop i 0 s)) 2000)
        as [Hgt | Hle].
      * simpl in Hsum. lia.
      * apply IH; [lia | lia | exact Hsum].
Qed.

(** Once [sum] is above 1000 (and not above 2000) the loops add nothing
    more: each inner loop stops at its first iteration, which adds
    [i * 0], and the outer [break] is not taken. *)
Lemma outer_loop_saturated (d : nat) :
  forall (n i : Z) (s : ControlFlow.loops_state),
    Z.to_nat (n - i) = d -> 0 < i ->
    1000 < ControlFlow.sum s <= 2000 ->
    ControlFlow.sum (ControlFlow.outer_loop n i s) = ControlFlow.sum s /\
    (ControlFlow.BreakOuter ∉ ControlFlow.jumps s ->
     ControlFlow.BreakOuter ∉ ControlFlow.jumps (ControlFlow.outer_loop n i s)).
Proof.
  induction d as [| d IH]; intros n i s Hd Hi Hs.
  - rewrite outer_loop_done by lia. split; [reflexivity | auto].
  - destruct (Z_lt_ge_dec i n) as [Hlt | Hge];
      [| rewrite outer_loop_done by lia; split; [reflexivity | auto]].
    rewrite outer_loop_step by lia.
    destruct (Z.rem i 3 =? 0).
    + destruct (IH n (i + 1) (ControlFlow.take ControlFlow.ContinueOuter s))
        as [IH1 IH2]; [lia | lia | exact Hs |].
      split; [exact IH1 |].
      intros Hno. apply IH2. simpl.
      rewrite elem_of_app, list_elem_of_singleton. intros [? | ?]; [auto | discriminate].
    + assert (Hin : ControlFlow.inner_loop i 0 s =
                    ControlFlow.take ControlFlow.BreakInner s).
      { rewrite ControlFlow.inner_loop_equation_1.
        destruct (Z_lt_ge_dec 0 i); [| lia].
        cbv beta iota zeta delta [ControlFlow.inner_loop_unfold_clause_1].
        unfold ControlFlow.add_to_sum. rewrite Z.mul_0_r, Z.add_0_r.
        cbn [ControlFlow.sum].
        destruct (Z.gtb_spec (ControlFlow.sum s) 1000); [| lia].
        destruct s; reflexivity. }
      cbv zeta. rewrite Hin. cbn [ControlFlow.sum ControlFlow.take].
      destruct (Z.gtb_spec (ControlFlow.sum s) 2000); [lia |].
      destruct (IH n (i + 1) (ControlFlow.take ControlFlow.BreakInner s))
        as [IH1 IH2]; [lia | lia | exact Hs |].
      split; [exact IH1 |].
      intros Hno. apply IH2. simpl.
      rewrite elem_of_app, list_elem_of_singleton. intros [? | ?]; [auto | discriminate].
Qed.

(** The run of [complex_loops] for [n] at or above 12: as for 12, then
    saturated. *)
Lemma complex_loops_run_from_12 (n : Z) :
  12 <= n ->
  ControlFlow.sum (ControlFlow.complex_loops_run n) = 1007 /\
  ControlFlow.BreakOuter ∉ ControlFlow.jumps (ControlFlow.complex_loops_run n).
Proof.
  intros Hn. unfold ControlFlow.complex_loops_run.
  rewrite (outer_loop_split 12 n 12 0 (ControlFlow.LoopsState 0 []) eq_refl);
    [| lia | vm_compute; discriminate].
  set (s12 := ControlFlow.outer_loop 12 0 (ControlFlow.LoopsState 0 [])).
  assert (Hs : ControlFlow.sum s12 = 1007) by (vm_compute; reflexivity).
  assert (Hj : ControlFlow.BreakOuter ∉ ControlFlow.jumps s12).
  { replace (ControlFlow.jumps s12)
      with (replicate 4 ControlFlow.ContinueOuter ++ [ControlFlow.BreakInner])
      by (vm_compute; reflexivity).
    rewrite elem_of_app, elem_of_replicate, list_elem_of_singleton.
    intros [[? _] | ?]; discriminate. }
  destruct (outer_loop_saturated (Z.to_nat (n - 12)) n 12 s12) as [H1 H2];
    [reflexivity | lia | lia |].
  split; [rewrite H1; exact Hs | exact (H2 Hj)].
Qed.

(** The runs for [n] from 1 to 11 are checked one by one. *)
Lemma small_cases (P : Z -> Prop) (n : Z) :
  0 < n < 12 -> Forall P (Z.of_nat <$> seq 1 11) -> P n.
Proof.
  intros Hn HP. rewrite Forall_forall in HP. apply HP.
  apply list_elem_of_fmap. exists (Z.to_nat n).
  split; [lia | apply elem_of_seq; lia].
Qed.

(** The goals for 1 to 11 of [small_cases], one by one. *)
Ltac each_small_case :=
  cbn [fmap list_fmap seq Z.of_nat Pos.of_succ_nat Pos.succ];
  repeat apply Forall_cons_2; try apply Forall_nil_2.

(** X5: [complex_loops] is bounded and saturates: for every [n] the
    result lies between 0 and 1007, it is 0 for [n <= 0], and it is 1007
    exactly for the [n] from 12 on. *)
Theorem complex_loops_saturates (n : Z) :
  0 <= ControlFlow.complex_loops n <= 1007 /\
  (ControlFlow.complex_loops n = 1007 <-> 12 <= n) /\
  (n <= 0 -> ControlFlow.complex_loops n = 0).
Proof.
  destruct (Z_lt_ge_dec n 12) as [Hlt | Hge].
  - destruct (Z_lt_ge_dec 0 n) as [Hpos | Hneg].
    + apply (small_cases (fun n =>
               0 <= ControlFlow.complex_loops n <= 1007 /\
               (ControlFlow.complex_loops n = 1007 <-> 12 <= n) /\
               (n <= 0 -> ControlFlow.complex_loops n = 0)) n (conj Hpos Hlt));
        each_small_case;
        (split; [vm_compute; split; discriminate
                | split; [split; [vm_compute; discriminate | lia] | lia]]).
    + unfold ControlFlow.complex_loops, ControlFlow.complex_loops_run.
      rewrite outer_loop_done by lia. simpl.
      split; [lia | split; [split; [discriminate | lia] | reflexivity]].
  - destruct (complex_loops_run_from_12 n) as [Hs _]; [lia |].
    unfold ControlFlow.complex_loops. rewrite Hs.
    split; [lia | split; [split; [lia | reflexivity] | lia]].
Qed.

(** X6: the outer [break] of [complex_loops], guarded by [sum > 2000], is
    taken in no execution, whatever [n]. *)
Theorem complex_loops_outer_break_never_taken (n : Z) :
  ControlFlow.BreakOuter ∉ ControlFlow.jumps (ControlFlow.complex_loops_run n).
Proof.
  destruct (Z_lt_ge_dec n 12) as [Hlt | Hge].
  - destruct (Z_lt_ge_dec 0 n) as [Hpos | Hneg].
    + apply (small_cases (fun n =>
               ControlFlow.BreakOuter ∉
                 ControlFlow.jumps (ControlFlow.complex_loops_run n))
               n (conj Hpos Hlt));
        each_small_case;
        (match goal with
         | |- _ ∉ ControlFlow.jumps ?r =>
             let js := eval vm_compute in (ControlFlow.jumps r) in
             change (ControlFlow.jumps r) with js
         end;
         rewrite list_elem_of_In; simpl; intuition discriminate).
    + unfold ControlFlow.complex_loops_run.
      rewrite outer_loop_done by lia. simpl. apply not_elem_of_nil.
  - apply complex_loops_run_from_12. lia.
Qed.

(** ** examples/fibonacci.c *)

Lemma fibonacci_closed (n : Z) :
  Fibonacci.fibonacci n =
    if n <=? 1 then n else Fibonacci.fib_seq (Z.to_nat n).
Proof.
  destruct (Z.leb_spec n 1) as [Hle | Hgt].
  - rewrite Fibonacci.fibonacci_equation_1.
    destruct (Z_le_gt_dec n 1); [reflexivity | lia].
  - rewrite <- (Z2Nat.id n) at 1 by lia. apply fibonacci_fib_seq.
Qed.

Lemma fibonacci_iterative_closed (n : Z) :
  Fibonacci.fibonacci_iterative n =
    if n <=? 1 then n else Fibonacci.fib_seq (Z.to_nat n).
Proof.
  unfold Fibonacci.fibonacci_iterative.
  destruct (Z.leb_spec n 1) as [Hle | Hgt]; [reflexivity |].
  apply (fib_loop_fib_seq (Z.to_nat (n - 1)) 0 n). lia.
Qed.

Lemma fib_seq_step (k : nat) :
  Fibonacci.fib_seq (S (S k)) = Fibonacci.fib_seq (S k) + Fibonacci.fib_seq k.
Proof. reflexivity. Qed.

(** The sequence is not negative and does not decrease; from index 1 on
    it is at least 1, and it is at least its index minus 1. *)
Lemma fib_seq_grows (k : nat) :
  0 <= Fibonacci.fib_seq k <= Fibonacci.fib_seq (S k) /\
  1 <= Fibonacci.fib_seq (S k).
Proof.
  induction k as [| k IH]; [vm_compute; repeat split; discriminate |].
  rewrite fib_seq_step. lia.
Qed.

(** The values at 46 and 47, computed through the loop of the iterative
    function. *)
Lemma fib_seq_46_47 :
  Fibonacci.fib_seq 46 = 1836311903 /\ Fibonacci.fib_seq 47 = 2971215073.
Proof.
  split.
  - pose proof (fib_loop_fib_seq 45 0 46 eq_refl) as H.
    change (Z.to_nat 46) with 46%nat in H. rewrite <- H.
    vm_compute. reflexivity.
  - pose proof (fib_loop_fib_seq 46 0 47 eq_refl) as H.
    change (Z.to_nat 47) with 47%nat in H. rewrite <- H.
    vm_compute. reflexivity.
Qed.

Lemma fib_seq_monotone (j k : nat) :
  (j <= k)%nat -> Fibonacci.fib_seq j <= Fibonacci.fib_seq k.
Proof.
  induction 1 as [| k _ IH]; [lia |].
  pose proof (fib_seq_grows k). lia.
Qed.

(** The recursive function on an [int] argument up to 46: its result
    fits an [int]. *)
Lemma fibonacci_fits_up_to_46 (n : Z) :
  IntRange.INT_MIN <= n -> n <= 46 -> IntRange.fits (Fibonacci.fibonacci n).
Proof.
  unfold IntRange.fits, IntRange.INT_MIN, IntRange.INT_MAX.
  intros Hlow Hup. rewrite fibonacci_closed.
  destruct (Z.leb_spec n 1); [lia |].
  destruct fib_seq_46_47 as [E46 _].
  pose proof (fib_seq_monotone (Z.to_nat n) 46) as Hm.
  pose proof (fib_seq_grows (Z.to_nat n)). lia.
Qed.

(** X7: the recursive [fibonacci] does not decrease on the arguments
    for which the C code adds without overflow: for [int] arguments
    [n <= m <= 46], both results fit an [int] and
    [fibonacci n <= fibonacci m] (negative arguments included, which are
    returned as they are). *)
Theorem fibonacci_monotone (n m : Z) :
  IntRange.INT_MIN <= n -> n <= m -> m <= 46 ->
  IntRange.fits (Fibonacci.fibonacci n) /\
  IntRange.fits (Fibonacci.fibonacci m) /\
  Fibonacci.fibonacci n <= Fibonacci.fibonacci m.
Proof.
  intros Hlow Hnm Hup.
  split; [apply fibonacci_fits_up_to_46; lia |].
  split; [apply fibonacci_fits_up_to_46; lia |].
  rewrite !fibonacci_closed.
  destruct (Z.leb_spec n 1) as [Hn | Hn], (Z.leb_spec m 1) as [Hm | Hm];
    try lia.
  - pose proof (fib_seq_monotone 1 (Z.to_nat m)) as Hmono.
    change (Fibonacci.fib_seq 1) with 1 in Hmono. lia.
  - apply fib_seq_monotone. lia.
Qed.

Lemma fibonacci_monotone_witness :
  IntRange.INT_MIN <= -5 /\ -5 <= 10 /\ 10 <= 46 /\
  IntRange.fits (Fibonacci.fibonacci (-5)) /\
  IntRange.fits (Fibonacci.fibonacci 10) /\
  Fibonacci.fibonacci (-5) <= Fibonacci.fibonacci 10.
Proof.
  assert (H1 : IntRange.INT_MIN <= -5) by (unfold IntRange.INT_MIN; lia).
  assert (H2 : -5 <= 10) by lia.
  assert (H3 : 10 <= 46) by lia.
  split; [exact H1 |]. split; [exact H2 |]. split; [exact H3 |].
  apply (fibonacci_monotone (-5) 10 H1 H2 H3).
Defined.

(** X8: where the two functions leave the range of [int]: for an
    argument that fits an [int], the exact result of [fibonacci] and of
    [fibonacci_iterative] fits an [int] exactly when the argument is at
    most 46. *)
Theorem fibonacci_fits_iff (n : Z) :
  IntRange.fits n ->
  (IntRange.fits (Fibonacci.fibonacci n) <-> n <= 46) /\
  (IntRange.fits (Fibonacci.fibonacci_iterative n) <-> n <= 46).
Proof.
  intros Hn. rewrite fibonacci_closed, fibonacci_iterative_closed.
  unfold IntRange.fits, IntRange.INT_MIN, IntRange.INT_MAX in *.
  destruct fib_seq_46_47 as [E46 E47].
  assert (Hup : (if n <=? 1 then n else Fibonacci.fib_seq (Z.to_nat n))
                <= 2147483647 <-> n <= 46).
  { destruct (Z.leb_spec n 1); [lia |].
    split; intros Hle.
    - destruct (Z_le_gt_dec n 46) as [? | Hgt]; [assumption |].
      pose proof (fib_seq_monotone 47 (Z.to_nat n)) as Hm. lia.
    - pose proof (fib_seq_monotone (Z.to_nat n) 46) as Hm. lia. }
  assert (Hlow : -2147483648 <=
                 (if n <=? 1 then n else Fibonacci.fib_seq (Z.to_nat n))).
  { destruct (Z.leb_spec n 1); [lia |].
    pose proof (fib_seq_grows (Z.to_nat n)). lia. }
  split; split; intros; try split; lia.
Qed.

Lemma fibonacci_fits_iff_witness :
  IntRange.fits 20 /\
  (IntRange.fits (Fibonacci.fibonacci 20) <-> 20 <= 46) /\
  (IntRange.fits (Fibonacci.fibonacci_iterative 20) <-> 20 <= 46).
Proof.
  assert (H : IntRange.fits 20)
    by (unfold IntRange.fits, IntRange.INT_MIN, IntRange.INT_MAX; lia).
  split; [exact H | apply (fibonacci_fits_iff 20 H)].
Defined.

(** ** rustcc/tests/complex.c *)

Lemma factorial_of_nat (k : nat) :
  TestsComplex.factorial (Z.of_nat k) = Z.of_nat (fact k).
Proof.
  induction k as [| k IH].
  - reflexivity.
  - rewrite TestsComplex.factorial_equation_1.
    destruct (Z_le_gt_dec (Z.of_nat (S k)) 1) as [Hle | Hgt].
    + assert (k = 0%nat) as -> by lia. reflexivity.
    + cbv beta iota delta [TestsComplex.factorial_unfold_clause_1].
      replace (Z.of_nat (S k) - 1) with (Z.of_nat k) by lia.
      rewrite IH. change (fact (S k)) with (S k * fact k)%nat. lia.
Qed.

Lemma factorial_below_1 (n : Z) : n <= 1 -> TestsComplex.factorial n = 1.
Proof.
  intros Hn. rewrite TestsComplex.factorial_equation_1.
  destruct (Z_le_gt_dec n 1); [reflexivity | lia].
Qed.

(** X9: [factorial] computes the factorial: for every integer [n] the
    result is the factorial of [n] as a natural number, which is 1 for
    every [n] below 1. *)
Theorem factorial_is_fact (n : Z) :
  TestsComplex.factorial n = Z.of_nat (fact (Z.to_nat n)).
Proof.
  destruct (Z_le_gt_dec n 0) as [Hle | Hgt].
  - rewrite factorial_below_1 by lia.
    replace (Z.to_nat n) with 0%nat by lia. reflexivity.
  - rewrite <- (Z2Nat.id n) at 1 by lia. apply factorial_of_nat.
Qed.

Lemma fact_monotone (j k : nat) : (j <= k)%nat -> (fact j <= fact k)%nat.
Proof.
  induction 1 as [| k _ IH]; [lia |].
  change (fact (S k)) with (S k * fact k)%nat. nia.
Qed.

(** X10: where [factorial] leaves the range of [int]: for an argument
    that fits an [int], the exact result fits an [int] exactly when the
    argument is at most 12. *)
Theorem factorial_fits_iff (n : Z) :
  IntRange.fits n ->
  (IntRange.fits (TestsComplex.factorial n) <-> n <= 12).
Proof.
  intros Hn.
  unfold IntRange.fits, IntRange.INT_MIN, IntRange.INT_MAX in *.
  destruct (Z_le_gt_dec n 0) as [Hle | Hgt];
    [rewrite factorial_below_1 by lia; lia |].
  rewrite <- (Z2Nat.id n) at 1 2 by lia. rewrite factorial_of_nat.
  assert (E12 : Z.of_nat (fact 12) = 479001600)
    by (rewrite <- (factorial_of_nat 12); vm_compute; reflexivity).
  assert (E13 : Z.of_nat (fact 13) = 6227020800)
    by (rewrite <- (factorial_of_nat 13); vm_compute; reflexivity).
  split; intros H.
  - destruct (Z_le_gt_dec n 12) as [? | Hgt']; [assumption |].
    pose proof (fact_monotone 13 (Z.to_nat n)) as Hm. lia.
  - pose proof (fact_monotone (Z.to_nat n) 12) as Hm. lia.
Qed.

Lemma factorial_fits_iff_witness :
  IntRange.fits 13 /\ (IntRange.fits (TestsComplex.factorial 13) <-> 13 <= 12).
Proof.
  assert (H : IntRange.fits 13)
    by (unfold IntRange.fits, IntRange.INT_MIN, IntRange.INT_MAX; lia).
  split; [exact H | apply (factorial_fits_iff 13 H)].
Defined.

Lemma tests_fibonacci_fib_seq (k : nat) :
  TestsComplex.fibonacci (Z.of_nat k) = Fibonacci.fib_seq k.
Proof.
  induction k as [k IH] using lt_wf_ind.
  rewrite TestsComplex.fibonacci_equation_1.
  destruct (Z_le_gt_dec (Z.of_nat k) 0) as [Hle | Hgt].
  - assert (k = 0%nat) as -> by lia. reflexivity.
  - cbv beta iota delta [TestsComplex.fibonacci_unfold_clause_1
                           TestsComplex.fibonacci_unfold_clause_1_clause_2].
    destruct (Z.eq_dec (Z.of_nat k) 1) as [E | Hne].
    + assert (k = 1%nat) as -> by lia. reflexivity.
    + destruct k as [| [| k]]; [lia | lia |].
      replace (Z.of_nat (S (S k)) - 1) with (Z.of_nat (S k)) by lia.
      replace (Z.of_nat (S (S k)) - 2) with (Z.of_nat k) by lia.
      rewrite (IH (S k)), (IH k) by lia.
      reflexivity.
Qed.

(** X11: the two [fibonacci] functions of the corpus, on the [int]
    arguments up to 46 (for which neither overflows: both results fit an
    [int]): the one of rustcc/tests/complex.c is the one of
    examples/fibonacci.c cut off at 0: they agree on every argument from
    0 to 46, and for a negative argument the first returns 0 where the
    second returns the argument itself. *)
Theorem tests_fibonacci_is_clamped (n : Z) :
  IntRange.INT_MIN <= n -> n <= 46 ->
  IntRange.fits (Fibonacci.fibonacci n) /\
  IntRange.fits (TestsComplex.fibonacci n) /\
  TestsComplex.fibonacci n = Z.max 0 (Fibonacci.fibonacci n).
Proof.
  intros Hlow Hup.
  pose proof (fibonacci_fits_up_to_46 n Hlow Hup) as Hfit.
  assert (E : TestsComplex.fibonacci n = Z.max 0 (Fibonacci.fibonacci n));
    [| split; [exact Hfit | split; [| exact E]];
       rewrite E; unfold IntRange.fits, IntRange.INT_MIN, IntRange.INT_MAX in *;
       lia].
  rewrite fibonacci_closed.
  destruct (Z_le_gt_dec n 0) as [Hle | Hgt].
  - rewrite TestsComplex.fibonacci_equation_1.
    destruct (Z_le_gt_dec n 0); [| lia].
    destruct (Z.leb_spec n 1); [| lia].
    cbv beta iota delta [TestsComplex.fibonacci_unfold_clause_1]. lia.
  - rewrite <- (Z2Nat.id n) at 1 by lia. rewrite tests_fibonacci_fib_seq.
    pose proof (fib_seq_grows (Z.to_nat n)) as Hg.
    destruct (Z.leb_spec n 1).
    + assert (n = 1) as -> by lia. reflexivity.
    + lia.
Qed.

Lemma tests_fibonacci_is_clamped_witness :
  IntRange.INT_MIN <= -3 /\ -3 <= 46 /\
  IntRange.fits (Fibonacci.fibonacci (-3)) /\
  IntRange.fits (TestsComplex.fibonacci (-3)) /\
  TestsComplex.fibonacci (-3) = Z.max 0 (Fibonacci.fibonacci (-3)).
Proof.
  assert (H1 : IntRange.INT_MIN <= -3) by (unfold IntRange.INT_MIN; lia).
  assert (H2 : -3 <= 46) by lia.
  split; [exact H1 |]. split; [exact H2 |].
  apply (tests_fibonacci_is_clamped (-3) H1 H2).
Defined.

(** The loop of [calculate_sum], entered at [i] with [sum]: it adds the
    elements from [i] up to [size], if they are all in the array. *)
Lemma sum_loop_spec (arr : list Z) (size : Z) (d : nat) :
  forall (i sum : Z),
    Z.to_nat (size - i) = d -> 0 <= i ->
    TestsComplex.sum_loop arr size i sum =
      if size <=? Z.max i (Z.of_nat (length arr))
      then Some (sum + foldr Z.add 0
                         (take (Z.to_nat (size - i)) (drop (Z.to_nat i) arr)))
      else None.
Proof.
  induction d as [| d IH]; intros i sum Hd Hi;
    rewrite TestsComplex.sum_loop_equation_1;
    destruct (Z_lt_ge_dec i size) as [Hlt | Hge]; try lia.
  - destruct (Z.leb_spec size (Z.max i (Z.of_nat (length arr)))); [| lia].
    replace (Z.to_nat (size - i)) with 0%nat by lia. simpl. f_equal. lia.
  - cbv beta iota delta [TestsComplex.sum_loop_unfold_clause_1].
    unfold TestsComplex.index. destruct (Z.ltb_spec i 0); [lia |].
    destruct (arr !! Z.to_nat i) as [x |] eqn:Hx.
    + pose proof (lookup_lt_Some _ _ _ Hx) as Hlen.
      rewrite (IH (i + 1) (sum + x)) by lia.
      replace (Z.max (i + 1) (Z.of_nat (length arr)))
        with (Z.max i (Z.of_nat (length arr))) by lia.
      destruct (size <=? Z.max i (Z.of_nat (length arr))); [| reflexivity].
      replace (Z.to_nat (size - i)) with (S (Z.to_nat (size - (i + 1)))) by lia.
      rewrite (drop_S _ _ _ Hx).
      replace (Z.to_nat (i + 1)) with (S (Z.to_nat i)) by lia.
      simpl. f_equal. lia.
    + apply lookup_ge_None in Hx.
      destruct (Z.leb_spec size (Z.max i (Z.of_nat (length arr)))); [lia |].
      reflexivity.
Qed.

(** X12: [calculate_sum arr size] where the C code adds without
    overflow: for an array of [int]s and an [int] [size] such that every
    partial sum that the loop computes fits an [int], the result is the
    sum of the first [size] elements of [arr], which fits an [int], when
    [size] is at most the length of the array (0 for a [size] of 0 or
    less); a larger [size] makes the loop read past the end of the
    array, and there is no result. *)
Theorem calculate_sum_spec (arr : list Z) (size : Z) :
  IntRange.fits size ->
  Forall IntRange.fits arr ->
  (forall k : nat,
     (k <= length arr)%nat -> Z.of_nat k <= size ->
     IntRange.fits (foldr Z.add 0 (take k arr))) ->
  TestsComplex.calculate_sum arr size =
    (if size <=? Z.of_nat (length arr)
     then Some (foldr Z.add 0 (take (Z.to_nat size) arr))
     else None) /\
  (forall s, TestsComplex.calculate_sum arr size = Some s -> IntRange.fits s).
Proof.
  intros _ _ Hsums.
  assert (E : TestsComplex.calculate_sum arr size =
              if size <=? Z.of_nat (length arr)
              then Some (foldr Z.add 0 (take (Z.to_nat size) arr))
              else None).
  { unfold TestsComplex.calculate_sum.
    destruct (Z_le_gt_dec size 0) as [Hle | Hgt].
    - rewrite TestsComplex.sum_loop_equation_1.
      destruct (Z_lt_ge_dec 0 size); [lia |].
      destruct (Z.leb_spec size (Z.of_nat (length arr))); [| lia].
      replace (Z.to_nat size) with 0%nat by lia. reflexivity.
    - rewrite (sum_loop_spec arr size (Z.to_nat (size - 0)) 0 0) by lia.
      rewrite Z.max_r by lia. rewrite Z.sub_0_r. reflexivity. }
  split; [exact E |].
  intros s Hs. rewrite E in Hs.
  destruct (Z.leb_spec size (Z.of_nat (length arr))) as [Hle | Hgt];
    [| discriminate Hs].
  injection Hs as <-.
  destruct (Z_le_gt_dec size 0) as [Hneg | Hpos].
  - replace (Z.to_nat size) with 0%nat by lia. simpl.
    unfold IntRange.fits, IntRange.INT_MIN, IntRange.INT_MAX. lia.
  - apply Hsums; lia.
Qed.

Lemma calculate_sum_spec_witness :
  IntRange.fits 3 /\
  Forall IntRange.fits [5; 10; 15] /\
  TestsComplex.calculate_sum [5; 10; 15] 3 =
    (if 3 <=? Z.of_nat (length [5; 10; 15])
     then Some (foldr Z.add 0 (take (Z.to_nat 3) [5; 10; 15]))
     else None) /\
  (forall s, TestsComplex.calculate_sum [5; 10; 15] 3 = Some s -> IntRange.fits s).
Proof.
  assert (Hfit : forall z, 0 <= z <= 30 -> IntRange.fits z)
    by (unfold IntRange.fits, IntRange.INT_MIN, IntRange.INT_MAX; lia).
  assert (H1 : IntRange.fits 3) by (apply Hfit; lia).
  assert (H2 : Forall IntRange.fits [5; 10; 15])
    by (repeat constructor; apply Hfit; lia).
  split; [exact H1 |]. split; [exact H2 |].
  apply (calculate_sum_spec [5; 10; 15] 3 H1 H2).
  intros k Hk _. simpl in Hk.
  destruct k as [| [| [| [| k]]]]; simpl; apply Hfit; lia.
Defined.

(** ** rustcc/test/complex.c *)

(** The loop of [print_array], entered at [i] with the output [out]. *)
Lemma print_loop_spec (arr : list Z) (size : Z) (d : nat) :
  forall (i : Z) (out : list Stdio.call),
    Z.to_nat (size - i) = d -> 0 <= i ->
    TestComplex.print_loop arr size i out =
      if size <=? Z.max i (Z.of_nat (length arr))
      then Some (out ++ ((fun x => ("%d ", [Stdio.AInt x])) <$>
                           take (Z.to_nat (size - i)) (drop (Z.to_nat i) arr)))
      else None.
Proof.
  induction d as [| d IH]; intros i out Hd Hi;
    rewrite TestComplex.print_loop_equation_1;
    destruct (Z_lt_ge_dec i size) as [Hlt | Hge]; try lia.
  - destruct (Z.leb_spec size (Z.max i (Z.of_nat (length arr)))); [| lia].
    replace (Z.to_nat (size - i)) with 0%nat by lia. simpl.
    rewrite app_nil_r. reflexivity.
  - cbv beta iota delta [TestComplex.print_loop_unfold_clause_1].
    unfold TestsComplex.index. destruct (Z.ltb_spec i 0); [lia |].
    destruct (arr !! Z.to_nat i) as [x |] eqn:Hx.
    + pose proof (lookup_lt_Some _ _ _ Hx) as Hlen.
      rewrite (IH (i + 1)) by lia.
      replace (Z.max (i + 1) (Z.of_nat (length arr)))
        with (Z.max i (Z.of_nat (length arr))) by lia.
      destruct (size <=? Z.max i (Z.of_nat (length arr))); [| reflexivity].
      replace (Z.to_nat (size - i)) with (S (Z.to_nat (size - (i + 1)))) by lia.
      rewrite (drop_S _ _ _ Hx).
      replace (Z.to_nat (i + 1)) with (S (Z.to_nat i)) by lia.
      simpl. rewrite <- app_assoc. reflexivity.
    + apply lookup_ge_None in Hx.
      destruct (Z.leb_spec size (Z.max i (Z.of_nat (length arr)))); [lia |].
      reflexivity.
Qed.

(** X14: [print_array arr size] prints the first [size] elements of
    [arr] in order, each with the format "%d ", and then a newline, when
    [size] is at most the length of the array (only the newline for a
    [size] of 0 or less); a larger [size] makes the loop read past the
    end of the array, and there is no result. *)
Theorem print_array_spec (arr : list Z) (size : Z) :
  TestComplex.print_array arr size =
    if size <=? Z.of_nat (length arr)
    then Some (((fun x => ("%d ", [Stdio.AInt x])) <$> take (Z.to_nat size) arr)
               ++ [("\n", [])])
    else None.
Proof.
  unfold TestComplex.print_array.
  destruct (Z_le_gt_dec size 0) as [Hle | Hgt].
  - rewrite TestComplex.print_loop_equation_1.
    destruct (Z_lt_ge_dec 0 size); [lia |].
    destruct (Z.leb_spec size (Z.of_nat (length arr))); [| lia].
    replace (Z.to_nat size) with 0%nat by lia. reflexivity.
  - rewrite (print_loop_spec arr size (Z.to_nat (size - 0)) 0 []) by lia.
    rewrite Z.max_r by lia. rewrite Z.sub_0_r.
    destruct (size <=? Z.of_nat (length arr)); reflexivity.
Qed.

(** ** examples/string_encryption.c *)



(** ** examples/control_flow.c: which jumps an execution takes *)

(** The loops only add to the jumps taken so far. *)
Lemma inner_loop_extends (d : nat) :
  forall (i j : Z) (s : ControlFlow.loops_state),
    Z.to_nat (i - j) = d ->
    exists l, ControlFlow.jumps (ControlFlow.inner_loop i j s) =
              ControlFlow.jumps s ++ l.
Proof.
  induction d as [| d IH]; intros i j s Hd;
    rewrite ControlFlow.inner_loop_equation_1;
    destruct (Z_lt_ge_dec j i) as [Hlt | Hge]; try lia;
    try (exists []; rewrite app_nil_r; reflexivity).
  cbv beta iota zeta delta [ControlFlow.inner_loop_unfold_clause_1].
  destruct (ControlFlow.sum (ControlFlow.add_to_sum (i * j) s) >? 1000).
  - eexists. reflexivity.
  - destruct (IH i (j + 1) (ControlFlow.add_to_sum (i * j) s)) as [l Hl]; [lia |].
    exists l. exact Hl.
Qed.

Lemma outer_loop_extends (d : nat) :
  forall (n i : Z) (s : ControlFlow.loops_state),
    Z.to_nat (n - i) = d ->
    exists l, ControlFlow.jumps (ControlFlow.outer_loop n i s) =
              ControlFlow.jumps s ++ l.
Proof.
  induction d as [| d IH]; intros n i s Hd;
    (destruct (Z_lt_ge_dec i n) as [Hlt | Hge];
     [| rewrite outer_loop_done by lia; exists []; rewrite app_nil_r; reflexivity]);
    try lia.
  rewrite outer_loop_step by lia.
  destruct (Z.rem i 3 =? 0).
  - destruct (IH n (i + 1) (ControlFlow.take ControlFlow.ContinueOuter s))
      as [l Hl]; [lia |].
    rewrite Hl. simpl. rewrite <- app_assoc. eexists. reflexivity.
  - cbv zeta.
    destruct (inner_loop_extends (Z.to_nat (i - 0)) i 0 s eq_refl) as [l1 Hl1].
    destruct (ControlFlow.sum (ControlFlow.inner_loop i 0 s) >? 2000).
    + simpl. rewrite Hl1, <- app_assoc. eexists. reflexivity.
    + destruct (IH n (i + 1) (ControlFlow.inner_loop i 0 s)) as [l Hl]; [lia |].
      rewrite Hl, Hl1, <- app_assoc. eexists. reflexivity.
Qed.

(** X15: which jumps an execution of [complex_loops] takes: the
    [continue] exactly when [n] is at least 1, and the inner [break]
    exactly when [n] is at least 12. *)
Theorem complex_loops_jumps_taken (n : Z) :
  (ControlFlow.ContinueOuter ∈ ControlFlow.jumps (ControlFlow.complex_loops_run n)
   <-> 1 <= n) /\
  (ControlFlow.BreakInner ∈ ControlFlow.jumps (ControlFlow.complex_loops_run n)
   <-> 12 <= n).
Proof.
  destruct (Z_lt_ge_dec 0 n) as [Hpos | Hneg].
  - assert (Hc : ControlFlow.ContinueOuter ∈
                 ControlFlow.jumps (ControlFlow.complex_loops_run n)).
    { unfold ControlFlow.complex_loops_run.
      rewrite outer_loop_step by lia. change (Z.rem 0 3 =? 0) with true. cbv iota.
      destruct (outer_loop_extends (Z.to_nat (n - (0 + 1))) n (0 + 1)
                  (ControlFlow.take ControlFlow.ContinueOuter
                     (ControlFlow.LoopsState 0 [])) eq_refl) as [l Hl].
      rewrite Hl. simpl. apply elem_of_cons. left. reflexivity. }
    split; [split; [lia | intros _; exact Hc] |].
    destruct (Z_lt_ge_dec n 12) as [Hlt | Hge].
    + apply (small_cases (fun n =>
               ControlFlow.BreakInner ∈
                 ControlFlow.jumps (ControlFlow.complex_loops_run n) <-> 12 <= n)
               n (conj Hpos Hlt));
        each_small_case;
        (match goal with
         | |- _ ∈ ControlFlow.jumps ?r <-> _ =>
             let js := eval vm_compute in (ControlFlow.jumps r) in
             change (ControlFlow.jumps r) with js
         end;
         rewrite list_elem_of_In; simpl; split; [intuition discriminate | lia]).
    + split; [lia | intros _].
      unfold ControlFlow.complex_loops_run.
      rewrite (outer_loop_split 12 n 12 0 (ControlFlow.LoopsState 0 []) eq_refl);
        [| lia | vm_compute; discriminate].
      destruct (outer_loop_extends (Z.to_nat (n - 12)) n 12
                  (ControlFlow.outer_loop 12 0 (ControlFlow.LoopsState 0 []))
                  eq_refl) as [l Hl].
      rewrite Hl. apply elem_of_app. left.
      replace (ControlFlow.jumps
                 (ControlFlow.outer_loop 12 0 (ControlFlow.LoopsState 0 [])))
        with (replicate 4 ControlFlow.ContinueOuter ++ [ControlFlow.BreakInner])
        by (vm_compute; reflexivity).
      apply elem_of_app. right. apply list_elem_of_singleton. reflexivity.
  - unfold ControlFlow.complex_loops_run. rewrite outer_loop_done by lia. simpl.
    split; (split; [intros H; apply elem_of_nil in H; destruct H | lia]).
Qed.
